(** * font_atlas: word cache, UTF-8 boundary decoding and greedy line layout

    A shallow embedding of [font_atlas.cpp] (libwtk-sdl2).  The SDL_ttf
    rasterizer and the SDL surface backend are external: the font is a
    record of the answers the code asks of them, a surface is its address
    and its dimensions.  C++ [int] values are integers of [Z]: the shifts
    and conversions of the decoder are written with their wrap-around; a
    sum or product of pixel sizes that leaves the range of [int], the read
    through a null pointer and the read of a surface that [clear] has freed
    have no defined result, which is [None]. *)

From Stdlib Require Import ZArith Lia List Ascii String.
From stdpp Require Import base option list gmap strings pretty.
From Equations Require Import Equations.
Import ListNotations.

Local Open Scope string_scope.
Local Open Scope list_scope.
Local Open Scope Z_scope.

(** ** Bytes and C strings *)

Module Bytes.

(** The value of a [char] read as an unsigned byte. *)
Definition byte_val (c : ascii) : Z := Z.of_N (N_of_ascii c).

Definition byte_chr (b : Z) : ascii := ascii_of_N (Z.to_N b).

Fixpoint string_of_bytes (bs : list Z) : string :=
  match bs with
  | [] => EmptyString
  | b :: r => String (byte_chr b) (string_of_bytes r)
  end.

(** [*(s.c_str() + i)]: the storage of a string is its [size()] bytes
    followed by one terminating NUL; any other index is outside of it. *)
Definition c_str_read (s : string) (i : Z) : option Z :=
  if i <? 0 then None
  else match String.get (Z.to_nat i) s with
       | Some c => Some (byte_val c)
       | None => if i =? Z.of_nat (String.length s) then Some 0 else None
       end.

(** Conversion of a mathematical result to [int] and to [uint32_t]. *)
Definition int_wrap (x : Z) : Z := (x + 2 ^ 31) mod 2 ^ 32 - 2 ^ 31.
Definition to_uint32 (x : Z) : Z := x mod 2 ^ 32.

(** Arithmetic on [int] where the source relies on it not overflowing:
    a sum or a product outside of the range of [int] has no defined
    result. *)
Definition in_int (x : Z) : bool := (- 2 ^ 31 <=? x) && (x <? 2 ^ 31).
Definition int_checked (x : Z) : option Z := if in_int x then Some x else None.
Definition int_add (x y : Z) : option Z := int_checked (x + y).
Definition int_mul (x y : Z) : option Z := int_checked (x * y).

End Bytes.

(** ** The codepoint decoder *)

Module Utf8.
Import Bytes.

(** Modelled from the spec: [is_utf8_following_byte] is declared in
    [util.hpp], which is not part of the sources at hand; section 4.1 of
    the specification describes a continuation byte as one whose top two
    bits are [10]. *)
Definition is_utf8_following_byte (b : Z) : bool := Z.land b 0xC0 =? 0x80.

(** The [while ((t & 0xC0) == 0xC0)] loop of [utf8_to_ucs4].  Every round
    pops one byte of the deque, so the deque is the structural argument;
    [front()] of an exhausted deque has no defined result. *)
Fixpoint utf8_loop (t charcode high_bit_mask high_bit_shift total_bits : Z)
    (coded : list Z) : option Z :=
  if Z.land t 0xC0 =? 0xC0 then
    match coded with
    | [] => None
    | c :: coded' =>
        let t := Z.land (Z.shiftl t 1) 0xff in
        let total_bits := total_bits + 6 in
        let high_bit_mask := Z.shiftr high_bit_mask 1 in
        let high_bit_shift := high_bit_shift + 1 in
        let charcode := int_wrap (Z.shiftl charcode 6) in
        let charcode := Z.lor charcode (Z.land c (Z.shiftl 1 6 - 1)) in
        utf8_loop t charcode high_bit_mask high_bit_shift total_bits coded'
    end
  else
    Some (Z.lor charcode
            (int_wrap (Z.shiftl (Z.land (Z.shiftr t high_bit_shift) high_bit_mask)
                         total_bits))).

Definition utf8_to_ucs4 (coded : list Z) : option Z :=
  match coded with
  | [] => None
  | t :: coded =>
      if t <? 128 then Some (to_uint32 t)
      else to_uint32 <$> utf8_loop t 0 (Z.shiftl 1 6 - 1) 0 0 coded
  end.

(** The backward walk of [get_last_ucs4]: [ptr] is the index [i] into the
    buffer; stepping below index 0 leaves the storage. *)
Fixpoint last_loop (buf : string) (i : nat) (d : list Z) : option (list Z) :=
  match c_str_read buf (Z.of_nat i) with
  | None => None
  | Some b =>
      if is_utf8_following_byte b then
        match i with
        | O => None
        | S j => last_loop buf j (b :: d)
        end
      else Some (b :: d)
  end.

Definition get_last_ucs4 (s : string) : option Z :=
  let ptr := Z.of_nat (String.length s) - 1 in
  b ← c_str_read s ptr;
  let '(buf, ptr) := if b =? 0 then (" ", 0) else (s, ptr) in
  d ← last_loop buf (Z.to_nat ptr) [];
  utf8_to_ucs4 d.

(** The forward walk of [get_first_ucs4] over the bytes after the lead
    byte; the terminating NUL is not a continuation byte and stops it. *)
Fixpoint first_loop (rest : string) : list Z :=
  match rest with
  | EmptyString => []
  | String c rest' =>
      if is_utf8_following_byte (byte_val c) then byte_val c :: first_loop rest'
      else []
  end.

(** [buf] below is never empty: it is the literal [" "] or a string whose
    first byte is not NUL. *)
Definition get_first_ucs4 (s : string) : option Z :=
  b ← c_str_read s 0;
  let buf := if b =? 0 then " " else s in
  match buf with
  | EmptyString => None
  | String c rest => utf8_to_ucs4 (byte_val c :: first_loop rest)
  end.

End Utf8.

(** ** The word tokenizer *)

Module Tokenizer.

(** [t.find(c, pos)]: the least index at or after [pos] that holds [c];
    [None] stands for [npos]. *)
Fixpoint find (t : string) (c : ascii) (pos : nat) : option nat :=
  match t with
  | EmptyString => None
  | String a r =>
      match pos with
      | O => if Ascii.eqb a c then Some O else S <$> find r c O
      | S p => S <$> find r c p
      end
  end.

(** [words.push_back(w)] guarded by [!w.empty()]. *)
Definition push_word (words : list string) (w : string) : list string :=
  match w with
  | EmptyString => words
  | _ => words ++ [w]
  end.

(** Case analysis that keeps the equation of the scrutinee. *)
Definition inspect {A : Type} (x : A) : {y : A | x = y} := exist _ x eq_refl.

(** The [while] loop of [split_words] followed by the block that handles
    the text after the last space.  [t.substr(pos, n)] is [substring pos n t]
    (the loop keeps [last_pos <= t.size()], so [substr] does not throw). *)
Equations? split_loop (t : string) (last_pos : nat) (words : list string) :
    list string by wf (String.length t - last_pos)%nat lt :=
  split_loop t last_pos words with inspect (find t " "%char last_pos) := {
    | exist _ (Some pos) Hf =>
        split_loop t (pos + 1)
          (push_word words (substring last_pos (pos - last_pos) t));
    | exist _ None Hf =>
        push_word words (substring last_pos (String.length t - last_pos) t) }.
Proof.
  clear split_loop words.
  enough (forall s p k, find s " "%char p = Some k ->
                        (p <= k < String.length s)%nat) as Hb
    by (apply Hb in Hf; lia).
  clear. intros s. induction s as [|a r IH]; intros p k; simpl; [discriminate|].
  destruct p as [|p].
  - destruct (Ascii.eqb a " "%char).
    + intros [= <-]. lia.
    + destruct (find r " "%char O) as [j|] eqn:Hj; [|discriminate].
      intros [= <-]. apply IH in Hj. lia.
  - destruct (find r " "%char p) as [j|] eqn:Hj; [|discriminate].
    intros [= <-]. apply IH in Hj. lia.
Qed.

Definition split_words (t : string) : list string := split_loop t 0 [].

End Tokenizer.

(** ** The font, the surfaces and the atlas *)

Module Atlas.
Import Bytes Utf8 Tokenizer.

(** An [SDL_Surface]: the address of the allocation and the two fields
    the code reads.  An [SDL_Surface *] is an [option surface], [None] being
    [nullptr]. *)
Record surface := Surface { surf_id : positive; surf_w : Z; surf_h : Z }.

(** Where the next surface is allocated, given the addresses of the
    surfaces that are in use: some address that is not among them.  An
    address that was freed may be handed out again. *)
Record allocator := Allocator {
  alloc_address : list positive -> positive;
  alloc_fresh : forall live, alloc_address live ∉ live
}.

(** The answers of SDL_ttf for one opened font. *)
Record font := Font {
  (** [TTF_RenderUTF8_Blended]: width and height of the image, or failure *)
  render_size : string -> option (Z * Z);
  (** the address of the image [TTF_RenderUTF8_Blended] returns *)
  render_address : allocator;
  (** [TTF_SizeUTF8] *)
  size_utf8 : string -> option (Z * Z);
  (** [TTF_GetFontKerningSizeGlyphs] *)
  kerning_size_glyphs : Z -> Z -> Z;
  (** [TTF_FontHeight], [TTF_FontLineSkip] *)
  ttf_font_height : Z;
  ttf_font_line_skip : Z;
  (** [TTF_GlyphMetrics] of the space character: [minx] and [advance] *)
  space_glyph_minx : Z;
  space_glyph_advance : Z
}.

(** The members of [font_atlas], with two counts that the code does not
    hold and that none of its operations reads: the number of
    rasterizations, and the number of flushes so far, by which a pointer
    into the cache is known to be dangling (see [deref]). *)
Record font_atlas := FontAtlas {
  _font : font;
  _space_minx : Z;
  _space_advance : Z;
  _prerendered : gmap string (option surface);
  rasterized : nat;
  cleared : nat
}.

Definition vec : Type := Z * Z.

(** The constructor, for a font that opened. *)
Definition font_atlas_open (f : font) : font_atlas :=
  {| _font := f;
     _space_minx := space_glyph_minx f;
     _space_advance := space_glyph_advance f;
     _prerendered := ∅;
     rasterized := O;
     cleared := O |}.

Definition font_height (a : font_atlas) : Z := ttf_font_height (_font a).
Definition font_line_skip (a : font_atlas) : Z := ttf_font_line_skip (_font a).

Definition set_prerendered (m : gmap string (option surface)) (a : font_atlas) :
    font_atlas :=
  {| _font := _font a; _space_minx := _space_minx a;
     _space_advance := _space_advance a; _prerendered := m;
     rasterized := rasterized a; cleared := cleared a |}.

(** [clear]: every cached surface is freed and the map emptied. *)
Definition clear (a : font_atlas) : font_atlas :=
  {| _font := _font a; _space_minx := _space_minx a;
     _space_advance := _space_advance a; _prerendered := ∅;
     rasterized := rasterized a; cleared := S (cleared a) |}.

(** The addresses of the surfaces the cache holds. *)
Definition live_addresses (a : font_atlas) : list positive :=
  omap (fun kv : string * option surface => surf_id <$> kv.2)
    (map_to_list (_prerendered a)).

(** One call of [TTF_RenderUTF8_Blended(_font, w.c_str(), white)]. *)
Definition TTF_RenderUTF8_Blended (w : string) (a : font_atlas) :
    option surface * font_atlas :=
  let a' :=
    {| _font := _font a; _space_minx := _space_minx a;
       _space_advance := _space_advance a; _prerendered := _prerendered a;
       rasterized := S (rasterized a); cleared := cleared a |} in
  match render_size (_font a) w with
  | Some (sw, sh) =>
      (Some (Surface
               (alloc_address (render_address (_font a)) (live_addresses a))
               sw sh), a')
  | None => (None, a')
  end.

Definition word (w : string) (a : font_atlas) : option surface * font_atlas :=
  let a := if 40000 <? Z.of_nat (size (_prerendered a)) then clear a else a in
  match _prerendered a !! w with
  | None =>
      let '(p, a) := TTF_RenderUTF8_Blended w a in
      (p, set_prerendered (<[w := p]> (_prerendered a)) a)
  | Some p => (p, a)
  end.

Definition get_word_left_kerning (a : font_atlas) (w : string) : option Z :=
  c ← get_last_ucs4 w; Some (kerning_size_glyphs (_font a) c 32).

Definition get_word_right_kerning (a : font_atlas) (w : string) : option Z :=
  c ← get_first_ucs4 w; Some (kerning_size_glyphs (_font a) 32 c).

(** *** [text_size] *)

Record measure_state := MeasureState {
  actual_max_width : Z;
  lines : Z;
  current_line_num_words : Z;
  current_line_width : Z
}.

(** The [for] loop of the bounded branch over [words[k..]], followed by the
    two statements after it.  A result of [None] is the read of [surf->w]
    through a null pointer, which the source does not guard, or an [int]
    operation that overflows. *)
Fixpoint text_size_loop (ws : list string) (max_line_width : Z)
    (st : measure_state) (a : font_atlas) : option (vec * font_atlas) :=
  match ws with
  | [] =>
      let actual_max_width := Z.max (current_line_width st) (actual_max_width st) in
      height ← int_mul (lines st) (font_line_skip a);
      Some ((actual_max_width, height), a)
  | w :: ws' =>
      let '(p, a) := word w a in
      surf ← p;
      additional_width ← int_add (surf_w surf) (_space_advance a);
      sum ← int_add additional_width (current_line_width st);
      if sum >=? max_line_width then
        if surf_w surf >=? max_line_width then Some ((-1, -1), a)
        else
          lines' ← int_add (lines st) 1;
          text_size_loop ws' max_line_width
            {| actual_max_width :=
                 Z.max (current_line_width st) (actual_max_width st);
               lines := lines';
               current_line_num_words := 1;
               current_line_width := surf_w surf |} a
      else
        width' ← int_add (current_line_width st) additional_width;
        num_words' ← int_add (current_line_num_words st) 1;
        text_size_loop ws' max_line_width
          {| actual_max_width := actual_max_width st;
             lines := lines st;
             current_line_num_words := num_words';
             current_line_width := width' |} a
  end.

Definition text_size (t : string) (max_line_width : Z) (a : font_atlas) :
    option (vec * font_atlas) :=
  if max_line_width =? -1 then
    match size_utf8 (_font a) t with
    | None => Some ((-1, -1), a)
    | Some (w, h) => Some ((w, h), a)
    end
  else
    let words := split_words t in
    match words with
    | [] => Some ((0, 0), a)
    | w0 :: _ =>
        let '(p, a) := word w0 a in
        surf ← p;
        text_size_loop words max_line_width
          {| actual_max_width := 0; lines := 1;
             current_line_num_words := 1;
             current_line_width := surf_w surf |} a
    end.

(** *** [text] *)

(** The three vectors the layout loop of [text] grows, one entry per
    line, in the order of the source ([back()] is the last entry). *)
Record layout := Layout {
  widths : list Z;
  spaces_per_line : list (list Z);
  surfaces_per_line : list (list surface)
}.

Definition back {A : Type} (d : A) (l : list A) : A := List.last l d.

(** Assignment through the reference [l.back()]. *)
Fixpoint update_back {A : Type} (f : A -> A) (l : list A) : list A :=
  match l with
  | [] => []
  | [x] => [f x]
  | x :: r => x :: update_back f r
  end.

(** A pointer as the vector [surfaces] of [text] keeps it: what [word]
    returned, and the number of flushes at that moment.  The next flush
    frees the surface behind it, whatever is allocated at its address
    afterwards. *)
Definition held_pointer : Type := option surface * nat.

(** The first loop of [text]: [surfaces.push_back(word(w))] for each word. *)
Fixpoint render_words (ws : list string) (a : font_atlas) :
    list held_pointer * font_atlas :=
  match ws with
  | [] => ([], a)
  | w :: ws' =>
      let '(s, a) := word w a in
      let '(ss, a') := render_words ws' a in
      ((s, cleared a) :: ss, a')
  end.

(** A read through a held pointer: defined when the pointer is not null
    and no flush has freed its surface. *)
Definition deref (a : font_atlas) (p : held_pointer) : option surface :=
  if decide (p.2 = cleared a) then p.1 else None.

Definition join_width_of (a : font_atlas) (wn wn1 : string) : option Z :=
  lk ← get_word_left_kerning a wn;
  rk ← get_word_right_kerning a wn1;
  x ← int_add lk (_space_advance a);
  int_add x rk.

(** The body of the layout loop for the pair [words[n]], [words[n + 1]];
    [sn1] is [surfaces[n + 1]].  [None]: a codepoint helper read outside of
    its word, [surfaces[n + 1]] is null or freed, or a sum overflows. *)
Definition layout_join (a : font_atlas) (max_line_width : Z) (wn wn1 : string)
    (sn1 : held_pointer) (L : layout) : option layout :=
  let line_width := back 0 (widths L) in
  join_width ← join_width_of a wn wn1;
  s ← deref a sn1;
  x ← int_add line_width join_width;
  new_line_width ← int_add x (surf_w s);
  if (max_line_width =? -1) || (new_line_width <? max_line_width) then
    Some {| widths := update_back (fun _ => new_line_width) (widths L);
            spaces_per_line :=
              update_back (fun l => l ++ [join_width]) (spaces_per_line L);
            surfaces_per_line :=
              update_back (fun l => l ++ [s]) (surfaces_per_line L) |}
  else
    Some {| widths := widths L ++ [surf_w s];
            spaces_per_line := spaces_per_line L ++ [[0]];
            surfaces_per_line := surfaces_per_line L ++ [[s]] |}.

(** The layout loop: [wn] is [words[n]], [rest] the words and surfaces from
    index [n + 1] on. *)
Fixpoint layout_loop (a : font_atlas) (max_line_width : Z) (wn : string)
    (rest : list (string * held_pointer)) (L : layout) : option layout :=
  match rest with
  | [] => Some L
  | (wn1, sn1) :: rest' =>
      L' ← layout_join a max_line_width wn wn1 sn1 L;
      layout_loop a max_line_width wn1 rest' L'
  end.

Definition max_element (l : list Z) : Z :=
  match l with
  | [] => 0
  | x :: r => fold_left Z.max r x
  end.

(** What [text] hands back: the size of the surface it created and the
    blits made onto it, each with the [x] and [y] of its rectangle. *)
Record canvas := Canvas {
  canvas_w : Z;
  canvas_h : Z;
  canvas_blits : list (surface * Z * Z)
}.

(** The inner blit loop over one line, [x] being the cursor. *)
Fixpoint blit_line (x y : Z) (ss : list surface) (sps : list Z) :
    option (list (surface * Z * Z)) :=
  match ss, sps with
  | s :: ss', sp :: sps' =>
      x ← int_add x sp;
      x' ← int_add x (surf_w s);
      rest ← blit_line x' y ss' sps';
      Some ((s, x, y) :: rest)
  | _, _ => Some []
  end.

(** The outer blit loop; [y += font_line_skip()] ends every round. *)
Fixpoint blit_lines (y skip : Z) (sss : list (list surface)) (spss : list (list Z)) :
    option (list (surface * Z * Z)) :=
  match sss, spss with
  | ss :: sss', sps :: spss' =>
      line ← blit_line 0 y ss sps;
      y' ← int_add y skip;
      rest ← blit_lines y' skip sss' spss';
      Some (line ++ rest)
  | _, _ => Some []
  end.

(** The surface made when [result] is still null at the end of [text]. *)
Definition blank_canvas (a : font_atlas) : canvas := Canvas 0 (font_height a) [].

Definition text (t : string) (max_line_width : Z) (a : font_atlas) :
    option (canvas * font_atlas) :=
  match t with
  | EmptyString => Some (blank_canvas a, a)
  | _ =>
      let words := split_words t in
      let '(surfaces, a) := render_words words a in
      match words, surfaces with
      | w0 :: words', s0 :: surfaces' =>
          s0 ← deref a s0;
          L ← layout_loop a max_line_width w0 (combine words' surfaces')
                {| widths := [surf_w s0];
                   spaces_per_line := [[0]];
                   surfaces_per_line := [[s0]] |};
          let target_width := max_element (widths L) in
          target_height ←
            int_mul (font_line_skip a) (Z.of_nat (length (widths L)));
          blits ← blit_lines 0 (font_line_skip a) (surfaces_per_line L)
                     (spaces_per_line L);
          Some (Canvas target_width target_height blits, a)
      | _, _ => Some (blank_canvas a, a)
      end
  end.

(** *** [text_minimum_width] *)

Fixpoint text_minimum_width_loop (f : font) (ws : list string) (max_width : Z) :
    Z :=
  match ws with
  | [] => max_width
  | w :: ws' =>
      match size_utf8 f w with
      | None => -1
      | Some (width, _) => text_minimum_width_loop f ws' (Z.max max_width width)
      end
  end.

Definition text_minimum_width (t : string) (a : font_atlas) : Z :=
  text_minimum_width_loop (_font a) (split_words t) 0.

End Atlas.

(** ** Reference definitions the code is compared with *)

Module Reference.
Import Bytes Utf8 Atlas.

(** The pieces of [t] between its spaces, empty pieces included: the
    space-free strings whose concatenation with one space between
    neighbours is [t]. *)
Fixpoint fields (t : string) : list string :=
  match t with
  | EmptyString => [EmptyString]
  | String c r =>
      if Ascii.eqb c " "%char then EmptyString :: fields r
      else match fields r with
           | w :: ws => String c w :: ws
           | [] => [String c EmptyString]
           end
  end.

Definition nonempty (w : string) : bool :=
  match w with
  | EmptyString => false
  | _ => true
  end.

(** Section 4.2 of the specification: the non-empty pieces, in order. *)
Definition tokens (t : string) : list string := List.filter nonempty (fields t).

Fixpoint space_free (w : string) : bool :=
  match w with
  | EmptyString => true
  | String c r => negb (Ascii.eqb c " "%char) && space_free r
  end.

Fixpoint join_spaces (ws : list string) : string :=
  match ws with
  | [] => EmptyString
  | [w] => w
  | w :: ws' => w +:+ String " " (join_spaces ws')
  end.

(** UTF-8 (RFC 3629): the bytes that encode the codepoint [cp]. *)
Definition utf8_encode (cp : Z) : list Z :=
  if cp <? 0x80 then [cp]
  else if cp <? 0x800 then [0xC0 + cp / 64; 0x80 + cp mod 64]
  else if cp <? 0x10000 then
    [0xE0 + cp / 4096; 0x80 + (cp / 64) mod 64; 0x80 + cp mod 64]
  else
    [0xF0 + cp / 262144; 0x80 + (cp / 4096) mod 64; 0x80 + (cp / 64) mod 64;
     0x80 + cp mod 64].

(** The values of a 32-bit [int]. *)
Definition int_range (x : Z) : Prop := - 2 ^ 31 <= x < 2 ^ 31.

(** The range of the continuation bytes of UTF-8. *)
Definition continuation (b : Z) : Prop := 128 <= b < 192.

(** An allocator that takes the least address above all addresses in
    use; after a flush it starts again at address 1. *)
Definition first_free (live : list positive) : positive :=
  foldr (fun x acc => Pos.max (Pos.succ x) acc) 1%positive live.

Definition first_free_allocator : allocator.
Proof.
  refine {| alloc_address := first_free |}.
  intros live Hin.
  assert (forall (l : list positive) x,
            x ∈ l -> (x < first_free l)%positive) as Habove
    by (induction 1; simpl; lia).
  specialize (Habove _ _ Hin). lia.
Defined.

(** A flat test font: every character is [cw] wide, the space advances by
    [sa], there is no kerning; the rasterizer refuses the empty text. *)
Definition flat_font (cw sa skip h : Z) : font :=
  {| render_size := fun w =>
       match w with
       | EmptyString => None
       | _ => Some (cw * Z.of_nat (String.length w), h)
       end;
     render_address := first_free_allocator;
     size_utf8 := fun w => Some (cw * Z.of_nat (String.length w), h);
     kerning_size_glyphs := fun _ _ => 0;
     ttf_font_height := h;
     ttf_font_line_skip := skip;
     space_glyph_minx := 0;
     space_glyph_advance := sa |}.

(** Pixel sizes a rasterizer can answer: no negative image width, space
    advance or line skip. *)
Record font_sane (f : font) : Prop := {
  sane_advance : 0 <= space_glyph_advance f;
  sane_line_skip : 0 <= ttf_font_line_skip f;
  sane_width : forall w sw sh, render_size f w = Some (sw, sh) -> 0 <= sw
}.

Definition surface_size (s : surface) : Z * Z := (surf_w s, surf_h s).

(** The invariant of an atlas: the cached space advance is the font's, a
    cached entry is what the rasterizer answers for its word (null for a
    word it refuses), and the cached images have addresses of their own. *)
Record atlas_ok (a : font_atlas) : Prop := {
  ok_advance : _space_advance a = space_glyph_advance (_font a);
  ok_sizes : forall w p,
    _prerendered a !! w = Some p -> surface_size <$> p = render_size (_font a) w;
  ok_distinct : forall w1 w2 s1 s2,
    _prerendered a !! w1 = Some (Some s1) ->
    _prerendered a !! w2 = Some (Some s2) ->
    surf_id s1 = surf_id s2 -> w1 = w2
}.

(** The bounded branch of [text_size] read off the font alone: the same
    loop, overflow included, with the width of a word taken from the
    rasterizer's answer. *)
Fixpoint measure_loop (f : font) (ws : list string) (max_line_width : Z)
    (st : measure_state) : option vec :=
  match ws with
  | [] =>
      height ← int_mul (lines st) (ttf_font_line_skip f);
      Some (Z.max (current_line_width st) (actual_max_width st), height)
  | w :: ws' =>
      '(sw, _) ← render_size f w;
      additional_width ← int_add sw (space_glyph_advance f);
      sum ← int_add additional_width (current_line_width st);
      if sum >=? max_line_width then
        if sw >=? max_line_width then Some (-1, -1)
        else
          lines' ← int_add (lines st) 1;
          measure_loop f ws' max_line_width
            {| actual_max_width :=
                 Z.max (current_line_width st) (actual_max_width st);
               lines := lines';
               current_line_num_words := 1;
               current_line_width := sw |}
      else
        width' ← int_add (current_line_width st) additional_width;
        num_words' ← int_add (current_line_num_words st) 1;
        measure_loop f ws' max_line_width
          {| actual_max_width := actual_max_width st;
             lines := lines st;
             current_line_num_words := num_words';
             current_line_width := width' |}
  end.

Definition measure (f : font) (t : string) (max_line_width : Z) : option vec :=
  match Tokenizer.split_words t with
  | [] => Some (0, 0)
  | w0 :: ws =>
      '(sw, _) ← render_size f w0;
      measure_loop f (w0 :: ws) max_line_width
        {| actual_max_width := 0; lines := 1; current_line_num_words := 1;
           current_line_width := sw |}
  end.



(** How the run with the wider budget stands against the other one after
    the same words: it is on an earlier line, or on the same line and not
    further to the right. *)
Definition not_behind (st1 st2 : measure_state) : Prop :=
  lines st1 < lines st2 \/
  (lines st1 = lines st2 /\ current_line_width st1 <= current_line_width st2).

(** The shape the three vectors of the layout loop keep: one entry per
    line in each, at least one line, and on every line as many offsets as
    images. *)
Record layout_ok (L : layout) : Prop := {
  lo_lines : surfaces_per_line L <> [];
  lo_widths : List.length (widths L) = List.length (surfaces_per_line L);
  lo_offsets :
    Forall2 (fun (ss : list surface) (sps : list Z) =>
               List.length ss = List.length sps)
      (surfaces_per_line L) (spaces_per_line L)
}.






(** A word whose image is as wide as the budget [M] or wider. *)
Definition too_wide (f : font) (M : Z) (w : string) : Prop :=
  exists sw sh, render_size f w = Some (sw, sh) /\ M <= sw.

(** The width of the words [ws] put on one line, every word followed by
    a space advance. *)
Fixpoint run_width (f : font) (ws : list string) : Z :=
  match ws with
  | [] => 0
  | w :: ws' =>
      match render_size f w with
      | Some (sw, _) => sw + space_glyph_advance f
      | None => 0
      end + run_width f ws'
  end.

(** An atlas of the font [f] that holds [n] cached words, the decimal
    numerals of [0 .. n - 1], each with an image of its own. *)
Definition filled_cache (f : font) (n : nat) : gmap string (option surface) :=
  list_to_map
    ((fun k => (pretty k,
                (fun '(sw, sh) => Surface (Pos.of_succ_nat k) sw sh)
                  <$> render_size f (pretty k))) <$> seq 0 n).

Definition filled_atlas (f : font) (n : nat) : font_atlas :=
  {| _font := f;
     _space_minx := space_glyph_minx f;
     _space_advance := space_glyph_advance f;
     _prerendered := filled_cache f n;
     rasterized := n;
     cleared := O |}.

End Reference.

(** ** Facts about the checked arithmetic *)

Module IntFacts.
Import Bytes Reference.

Lemma int_checked_Some x z :
  int_checked x = Some z <-> z = x /\ int_range x.
Proof.
  unfold int_checked, in_int, int_range.
  destruct (Z.leb_spec (- 2 ^ 31) x), (Z.ltb_spec x (2 ^ 31)); simpl;
    split; try (intros [= <-]; split; [done | lia]); try done;
    try (intros [-> ?]; (done || lia)).
Qed.

Lemma int_add_Some x y z :
  int_add x y = Some z <-> z = x + y /\ int_range (x + y).
Proof. apply int_checked_Some. Qed.

Lemma int_mul_Some x y z :
  int_mul x y = Some z <-> z = x * y /\ int_range (x * y).
Proof. apply int_checked_Some. Qed.

Lemma int_add_fits x y : int_range (x + y) -> int_add x y = Some (x + y).
Proof. intros H. by apply int_add_Some. Qed.


End IntFacts.

(** ** Facts about the tokenizer *)

Module TokenizerFacts.
Import Tokenizer Reference.

#[local] Arguments String.append !_ _ / : simpl nomatch.

Lemma split_loop_unfold t last_pos words :
  split_loop t last_pos words =
  match find t " "%char last_pos with
  | Some pos =>
      split_loop t (pos + 1)
        (push_word words (substring last_pos (pos - last_pos) t))
  | None => push_word words (substring last_pos (String.length t - last_pos) t)
  end.
Proof.
  funelim (split_loop t last_pos words); rewrite Hf; reflexivity.
Qed.

Lemma push_word_app words w : push_word words w = words ++ push_word [] w.
Proof. destruct w; simpl; [by rewrite app_nil_r | done]. Qed.

Lemma find_app_skip pre suf c :
  find (pre +:+ suf) c (String.length pre) =
  (fun k => (String.length pre + k)%nat) <$> find suf c O.
Proof.
  induction pre as [|a pre IH]; simpl.
  - by destruct (find suf c O).
  - rewrite IH. by destruct (find suf c O).
Qed.

Lemma substring_app_skip pre suf n :
  substring (String.length pre) n (pre +:+ suf) = substring 0 n suf.
Proof. induction pre as [|a pre IH]; simpl; [done | exact IH]. Qed.

Lemma substring_prefix w rest :
  substring 0 (String.length w) (w +:+ rest) = w.
Proof.
  induction w as [|a w IH]; simpl.
  - by destruct rest.
  - by rewrite IH.
Qed.

Lemma substring_whole s : substring 0 (String.length s) s = s.
Proof. induction s as [|a s IH]; simpl; [done | by rewrite IH]. Qed.

Lemma string_app_assoc (a b c : string) : (a +:+ b) +:+ c = a +:+ (b +:+ c).
Proof. induction a as [|x a IH]; simpl; [done | by rewrite IH]. Qed.

Lemma string_app_length (a b : string) :
  String.length (a +:+ b) = (String.length a + String.length b)%nat.
Proof. induction a as [|x a IH]; simpl; [done | by rewrite IH]. Qed.

(** A hit of [find] cuts the text into a space-free piece, the space and
    the rest. *)
Lemma find_some_split suf k :
  find suf " "%char O = Some k ->
  exists w rest, suf = w +:+ String " " rest /\ String.length w = k /\
                 space_free w = true.
Proof.
  revert k. induction suf as [|a suf IH]; intros k; simpl; [discriminate|].
  destruct (Ascii.eqb a " "%char) eqn:Ha.
  - intros [= <-]. apply Ascii.eqb_eq in Ha as ->.
    by exists EmptyString, suf.
  - destruct (find suf " "%char O) as [j|] eqn:Hj; [|discriminate].
    intros [= <-]. destruct (IH j eq_refl) as (w & rest & -> & <- & Hw).
    exists (String a w), rest. simpl. by rewrite Ha, Hw.
Qed.

Lemma find_none_space_free suf :
  find suf " "%char O = None <-> space_free suf = true.
Proof.
  induction suf as [|a suf IH]; simpl; [done|].
  destruct (Ascii.eqb a " "%char); simpl; [done|].
  rewrite <- IH. by destruct (find suf " "%char O).
Qed.

Lemma fields_nonnil t : fields t <> [].
Proof.
  induction t as [|c r IH]; simpl; [done|].
  destruct (Ascii.eqb c " "%char); [done|]. by destruct (fields r).
Qed.

Lemma fields_space_free w : space_free w = true -> fields w = [w].
Proof.
  induction w as [|c w IH]; simpl; [done|].
  destruct (Ascii.eqb c " "%char); simpl; [done|].
  intros Hw. by rewrite (IH Hw).
Qed.

Lemma fields_cut w rest :
  space_free w = true -> fields (w +:+ String " " rest) = w :: fields rest.
Proof.
  induction w as [|c w IH]; simpl; [done|].
  destruct (Ascii.eqb c " "%char); simpl; [done|].
  intros Hw. by rewrite (IH Hw).
Qed.

Lemma tokens_cut w rest :
  space_free w = true ->
  tokens (w +:+ String " " rest) = push_word [] w ++ tokens rest.
Proof.
  intros Hw. unfold tokens. rewrite (fields_cut _ _ Hw). simpl.
  by destruct w.
Qed.

Lemma tokens_space_free w : space_free w = true -> tokens w = push_word [] w.
Proof.
  intros Hw. unfold tokens. rewrite (fields_space_free _ Hw). simpl.
  by destruct w.
Qed.

(** The loop, started at [last_pos = |pre|] on the text [pre ++ suf], adds
    the tokens of [suf] to the words it was given. *)
Lemma split_loop_tokens n : forall pre suf words,
  (String.length suf <= n)%nat ->
  split_loop (pre +:+ suf) (String.length pre) words = words ++ tokens suf.
Proof.
  induction n as [|n IH]; intros pre suf words Hn.
  - destruct suf; [|simpl in Hn; lia].
    rewrite split_loop_unfold, find_app_skip. simpl.
    rewrite string_app_length. simpl.
    replace (String.length pre + 0 - String.length pre)%nat with O by lia.
    rewrite substring_app_skip. simpl. by rewrite app_nil_r.
  - rewrite split_loop_unfold, find_app_skip.
    destruct (find suf " "%char O) as [k|] eqn:Hk; simpl.
    + destruct (find_some_split _ _ Hk) as (w & rest & -> & <- & Hw).
      replace (String.length pre + String.length w - String.length pre)%nat
        with (String.length w) by lia.
      rewrite substring_app_skip, substring_prefix.
      rewrite (tokens_cut _ _ Hw), (push_word_app words w), app_assoc.
      replace (pre +:+ w +:+ String " " rest)
        with ((pre +:+ w +:+ String " " EmptyString) +:+ rest)
        by (by rewrite !string_app_assoc).
      replace (String.length pre + String.length w + 1)%nat
        with (String.length (pre +:+ w +:+ String " " EmptyString))
        by (rewrite !string_app_length; simpl; lia).
      apply IH. rewrite string_app_length in Hn. simpl in Hn. lia.
    + apply find_none_space_free in Hk.
      rewrite string_app_length.
      replace (String.length pre + String.length suf - String.length pre)%nat
        with (String.length suf) by lia.
      rewrite substring_app_skip, substring_whole, (tokens_space_free _ Hk).
      apply push_word_app.
Qed.

Lemma split_words_tokens t : split_words t = tokens t.
Proof.
  unfold split_words.
  exact (split_loop_tokens (String.length t) EmptyString t [] (le_n _)).
Qed.

Lemma fields_all_space_free t : Forall (fun w => space_free w = true) (fields t).
Proof.
  induction t as [|c r IH]; simpl; [by repeat constructor|].
  destruct (Ascii.eqb c " "%char) eqn:Hc; [by constructor|].
  destruct (fields r) as [|w ws]; [by repeat constructor; simpl; rewrite Hc|].
  inversion IH; subst. constructor; [|done]. simpl. by rewrite Hc.
Qed.

Lemma join_spaces_fields t : join_spaces (fields t) = t.
Proof.
  induction t as [|c r IH]; simpl; [done|].
  destruct (Ascii.eqb c " "%char) eqn:Hc.
  - apply Ascii.eqb_eq in Hc as ->.
    pose proof (fields_nonnil r) as Hne.
    destruct (fields r) as [|w ws]; [done|]. simpl in *. by rewrite IH.
  - pose proof (fields_nonnil r) as Hne.
    destruct (fields r) as [|w ws]; [done|].
    destruct ws; simpl in *; by rewrite <- IH.
Qed.

Lemma fields_join_spaces ws :
  ws <> [] -> Forall (fun w => space_free w = true) ws ->
  fields (join_spaces ws) = ws.
Proof.
  induction ws as [|w ws IH]; [done|]. intros _ Hall.
  apply Forall_cons in Hall as [Hw Hall].
  destruct ws as [|w' ws]; [by apply fields_space_free|].
  change (fields (w +:+ String " " (join_spaces (w' :: ws))) = w :: w' :: ws).
  rewrite (fields_cut _ _ Hw). f_equal. by apply IH.
Qed.

Lemma tokens_sound t :
  Forall (fun w => w <> EmptyString /\ space_free w = true) (tokens t).
Proof.
  unfold tokens. induction (fields_all_space_free t) as [|w ws Hw _ IH];
    simpl; [constructor|].
  destruct w; simpl; [done|]. by constructor.
Qed.

(** C9: [split_words] returns, in their order, the non-empty pieces between
    the spaces of its input.  The pieces of [t] are the space-free strings
    that give [t] back when joined by single spaces, so a text written as
    space-free pieces joined by spaces splits into the non-empty ones among
    them; no word is empty or holds a space; the empty text has no word; a
    non-empty text without space is its own single word; and
    [split_words "  a   b  "] is ["a"; "b"]. *)
Theorem split_words_spec :
  (forall t, split_words t = tokens t) /\
  (forall t, join_spaces (fields t) = t /\
             Forall (fun w => space_free w = true) (fields t)) /\
  (forall ws, ws <> [] -> Forall (fun w => space_free w = true) ws ->
              split_words (join_spaces ws) = List.filter nonempty ws) /\
  (forall t, Forall (fun w => w <> EmptyString /\ space_free w = true)
               (split_words t)) /\
  split_words "" = [] /\
  (forall t, t <> EmptyString -> space_free t = true -> split_words t = [t]) /\
  split_words "solo" = ["solo"] /\
  split_words "  a   b  " = ["a"; "b"].
Proof.
  split_and!.
  - apply split_words_tokens.
  - intros t. split; [apply join_spaces_fields | apply fields_all_space_free].
  - intros ws Hne Hall. rewrite split_words_tokens. unfold tokens.
    by rewrite fields_join_spaces.
  - intros t. rewrite split_words_tokens. apply tokens_sound.
  - reflexivity.
  - intros t Hne Hsf. rewrite split_words_tokens, (tokens_space_free _ Hsf).
    by destruct t.
  - reflexivity.
  - reflexivity.
Qed.

Lemma split_words_spec_witness :
  "solo" <> EmptyString /\ space_free "solo" = true /\
  split_words "solo" = ["solo"] /\
  split_words (join_spaces [""; "a"; ""; "b"; ""]) = ["a"; "b"].
Proof.
  pose proof split_words_spec as (_ & _ & Hjoin & _ & _ & Hone & _).
  split_and!.
  - discriminate.
  - reflexivity.
  - apply Hone; [discriminate | reflexivity].
  - apply (Hjoin [""; "a"; ""; "b"; ""]); [discriminate|].
    repeat constructor.
Defined.

End TokenizerFacts.

(** ** Facts about the codepoint decoder *)

Module Utf8Facts.
Import Bytes Utf8 Reference.

Lemma byte_val_range c : 0 <= byte_val c < 256.
Proof.
  unfold byte_val. pose proof (N_ascii_bounded c) as Hb. lia.
Qed.

Lemma byte_val_chr b : 0 <= b < 256 -> byte_val (byte_chr b) = b.
Proof.
  intros Hb. unfold byte_val, byte_chr.
  rewrite N_ascii_embedding by lia. lia.
Qed.

Lemma int_wrap_small x : - 2 ^ 31 <= x < 2 ^ 31 -> int_wrap x = x.
Proof.
  intros Hx. unfold int_wrap. rewrite Z.mod_small; lia.
Qed.

Lemma to_uint32_small x : 0 <= x < 2 ^ 32 -> to_uint32 x = x.
Proof. intros Hx. unfold to_uint32. apply Z.mod_small. lia. Qed.

(** A property of bytes that a boolean test decides can be checked on the
    256 values. *)
Lemma byte_range_forallb (p : Z -> bool) :
  forallb p (map Z.of_nat (seq 0 256)) = true ->
  forall t, 0 <= t < 256 -> p t = true.
Proof.
  intros Hall t Ht. rewrite forallb_forall in Hall. apply Hall.
  apply in_map_iff. exists (Z.to_nat t). split; [lia|].
  apply in_seq. lia.
Qed.

Lemma lead_test t : 0 <= t < 256 -> (Z.land t 0xC0 =? 0xC0) = (192 <=? t).
Proof.
  intros Ht.
  apply Bool.eqb_prop.
  apply (byte_range_forallb
           (fun t => Bool.eqb (Z.land t 0xC0 =? 0xC0) (192 <=? t))); [|done].
  vm_compute. reflexivity.
Qed.

Lemma following_test b :
  0 <= b < 256 -> is_utf8_following_byte b = (128 <=? b) && (b <? 192).
Proof.
  intros Hb. unfold is_utf8_following_byte.
  apply Bool.eqb_prop.
  apply (byte_range_forallb
           (fun b => Bool.eqb (Z.land b 0xC0 =? 0x80) ((128 <=? b) && (b <? 192))));
    [|done].
  vm_compute. reflexivity.
Qed.

Lemma lor_high_low x b n :
  0 <= n -> 0 <= b < 2 ^ n -> Z.lor (x * 2 ^ n) b = x * 2 ^ n + b.
Proof.
  intros Hn Hb. rewrite <- Z.add_lor_land.
  assert (Z.land (x * 2 ^ n) b = 0) as ->; [|lia].
  apply Z.bits_inj'. intros k Hk.
  rewrite Z.land_spec, Z.bits_0.
  destruct (Z.lt_ge_cases k n) as [Hlt|Hge].
  - rewrite Z.mul_pow2_bits_low by lia. reflexivity.
  - replace b with (b mod 2 ^ n) by (apply Z.mod_small; lia).
    rewrite Z.mod_pow2_bits_high by lia. apply Bool.andb_false_r.
Qed.

Lemma lor_64 x b : 0 <= b < 64 -> Z.lor (x * 64) b = x * 64 + b.
Proof. intros Hb. apply (lor_high_low x b 6); lia. Qed.

(** One more round of the loop: the lead byte still shows two leading
    ones. *)
Lemma utf8_loop_more t cc m sh tb c rest :
  192 <= t < 256 ->
  utf8_loop t cc m sh tb (c :: rest) =
  utf8_loop ((2 * t) mod 256) (Z.lor (int_wrap (cc * 64)) (c mod 64))
    (Z.shiftr m 1) (sh + 1) (tb + 6) rest.
Proof.
  intros Ht. simpl. rewrite lead_test by lia.
  destruct (Z.leb_spec 192 t) as [_|]; [|lia].
  f_equal.
  - change 255 with (Z.ones 8). rewrite Z.land_ones by lia.
    rewrite Z.shiftl_mul_pow2 by lia. f_equal. lia.
  - change (Z.shiftl 1 6 - 1) with (Z.ones 6). rewrite Z.land_ones by lia.
    rewrite Z.shiftl_mul_pow2 by lia. reflexivity.
Qed.

(** The loop ends: what is left of the lead byte is or-ed in. *)
Lemma utf8_loop_done t cc k sh tb coded :
  0 <= t < 192 -> 0 <= k -> 0 <= sh -> 0 <= tb ->
  utf8_loop t cc (Z.ones k) sh tb coded =
  Some (Z.lor cc (int_wrap ((t / 2 ^ sh) mod 2 ^ k * 2 ^ tb))).
Proof.
  intros Ht Hk Hsh Htb.
  assert ((Z.land t 0xC0 =? 0xC0) = false) as Htest.
  { rewrite lead_test by lia. apply Z.leb_gt. lia. }
  destruct coded; simpl; rewrite Htest;
    rewrite Z.land_ones, Z.shiftr_div_pow2, Z.shiftl_mul_pow2 by lia;
    reflexivity.
Qed.

Lemma decode_1 cp : 0 <= cp < 128 -> utf8_to_ucs4 [cp] = Some cp.
Proof.
  intros Hcp. simpl. destruct (Z.ltb_spec cp 128); [|lia].
  by rewrite to_uint32_small by lia.
Qed.

Lemma decode_2 h m0 :
  0 <= h < 32 -> 0 <= m0 < 64 ->
  utf8_to_ucs4 [192 + h; 128 + m0] = Some (h * 64 + m0).
Proof.
  intros Hh H0. unfold utf8_to_ucs4.
  destruct (Z.ltb_spec (192 + h) 128); [lia|].
  rewrite utf8_loop_more by lia.
  replace ((2 * (192 + h)) mod 256) with (128 + 2 * h)
    by (Z.div_mod_to_equations; lia).
  replace ((128 + m0) mod 64) with m0 by (Z.div_mod_to_equations; lia).
  change (Z.shiftr (Z.shiftl 1 6 - 1) 1) with (Z.ones 5).
  rewrite utf8_loop_done by lia.
  change (0 * 64) with 0. rewrite int_wrap_small by lia.
  change (Z.lor 0 m0) with m0.
  replace (((128 + 2 * h) / 2 ^ (0 + 1)) mod 2 ^ 5) with h
    by (Z.div_mod_to_equations; lia).
  rewrite int_wrap_small by lia.
  rewrite Z.lor_comm, (lor_high_low h m0 (0 + 6)) by lia.
  simpl. rewrite to_uint32_small by lia. f_equal; lia.
Qed.

Lemma decode_3 h m1 m0 :
  0 <= h < 16 -> 0 <= m1 < 64 -> 0 <= m0 < 64 ->
  utf8_to_ucs4 [224 + h; 128 + m1; 128 + m0] = Some (h * 4096 + m1 * 64 + m0).
Proof.
  intros Hh H1 H0. unfold utf8_to_ucs4.
  destruct (Z.ltb_spec (224 + h) 128); [lia|].
  rewrite utf8_loop_more by lia.
  replace ((2 * (224 + h)) mod 256) with (192 + 2 * h)
    by (Z.div_mod_to_equations; lia).
  rewrite utf8_loop_more by lia.
  replace ((2 * (192 + 2 * h)) mod 256) with (128 + 4 * h)
    by (Z.div_mod_to_equations; lia).
  replace ((128 + m1) mod 64) with m1 by (Z.div_mod_to_equations; lia).
  replace ((128 + m0) mod 64) with m0 by (Z.div_mod_to_equations; lia).
  change (Z.shiftr (Z.shiftr (Z.shiftl 1 6 - 1) 1) 1) with (Z.ones 4).
  rewrite utf8_loop_done by lia.
  change (0 * 64) with 0. rewrite (int_wrap_small 0) by lia.
  change (Z.lor 0 m1) with m1.
  rewrite (int_wrap_small (m1 * 64)) by lia.
  rewrite (lor_64 m1 m0) by lia.
  replace (((128 + 4 * h) / 2 ^ (0 + 1 + 1)) mod 2 ^ 4) with h
    by (Z.div_mod_to_equations; lia).
  rewrite int_wrap_small by lia.
  rewrite Z.lor_comm, (lor_high_low h (m1 * 64 + m0) (0 + 6 + 6)) by lia.
  simpl. rewrite to_uint32_small by lia. f_equal; lia.
Qed.

Lemma decode_4 h m2 m1 m0 :
  0 <= h < 8 -> 0 <= m2 < 64 -> 0 <= m1 < 64 -> 0 <= m0 < 64 ->
  utf8_to_ucs4 [240 + h; 128 + m2; 128 + m1; 128 + m0] =
  Some (h * 262144 + m2 * 4096 + m1 * 64 + m0).
Proof.
  intros Hh H2 H1 H0. unfold utf8_to_ucs4.
  destruct (Z.ltb_spec (240 + h) 128); [lia|].
  rewrite utf8_loop_more by lia.
  replace ((2 * (240 + h)) mod 256) with (224 + 2 * h)
    by (Z.div_mod_to_equations; lia).
  rewrite utf8_loop_more by lia.
  replace ((2 * (224 + 2 * h)) mod 256) with (192 + 4 * h)
    by (Z.div_mod_to_equations; lia).
  rewrite utf8_loop_more by lia.
  replace ((2 * (192 + 4 * h)) mod 256) with (128 + 8 * h)
    by (Z.div_mod_to_equations; lia).
  replace ((128 + m2) mod 64) with m2 by (Z.div_mod_to_equations; lia).
  replace ((128 + m1) mod 64) with m1 by (Z.div_mod_to_equations; lia).
  replace ((128 + m0) mod 64) with m0 by (Z.div_mod_to_equations; lia).
  change (Z.shiftr (Z.shiftr (Z.shiftr (Z.shiftl 1 6 - 1) 1) 1) 1)
    with (Z.ones 3).
  rewrite utf8_loop_done by lia.
  change (0 * 64) with 0. rewrite (int_wrap_small 0) by lia.
  change (Z.lor 0 m2) with m2.
  rewrite (int_wrap_small (m2 * 64)) by lia.
  rewrite (lor_64 m2 m1) by lia.
  rewrite (int_wrap_small ((m2 * 64 + m1) * 64)) by lia.
  rewrite (lor_64 (m2 * 64 + m1) m0) by lia.
  replace (((128 + 8 * h) / 2 ^ (0 + 1 + 1 + 1)) mod 2 ^ 3) with h
    by (Z.div_mod_to_equations; lia).
  rewrite int_wrap_small by lia.
  rewrite Z.lor_comm,
    (lor_high_low h ((m2 * 64 + m1) * 64 + m0) (0 + 6 + 6 + 6)) by lia.
  simpl. rewrite to_uint32_small by lia. f_equal; lia.
Qed.

(** *** Words made of one codepoint *)

Lemma length_string_of_bytes bs :
  String.length (string_of_bytes bs) = List.length bs.
Proof. induction bs; simpl; [done | by f_equal]. Qed.

Lemma get_string_of_bytes bs n :
  String.get n (string_of_bytes bs) = byte_chr <$> bs !! n.
Proof.
  revert n. induction bs as [|b bs IH]; intros [|n]; simpl; auto.
Qed.

Lemma c_str_read_bytes bs n b :
  bs !! n = Some b -> 0 <= b < 256 ->
  c_str_read (string_of_bytes bs) (Z.of_nat n) = Some b.
Proof.
  intros Hn Hb. unfold c_str_read.
  destruct (Z.ltb_spec (Z.of_nat n) 0); [lia|].
  rewrite Nat2Z.id, get_string_of_bytes, Hn. simpl.
  by rewrite byte_val_chr.
Qed.

Lemma first_loop_bytes bs :
  Forall continuation bs -> first_loop (string_of_bytes bs) = bs.
Proof.
  induction 1 as [|b bs Hb _ IH]; simpl; [done|].
  unfold continuation in Hb.
  rewrite byte_val_chr, following_test by lia.
  destruct (Z.leb_spec 128 b); [|lia]. destruct (Z.ltb_spec b 192); [|lia].
  simpl. by rewrite IH.
Qed.

Lemma last_loop_S buf j d :
  last_loop buf (S j) d =
  match c_str_read buf (Z.of_nat (S j)) with
  | None => None
  | Some b =>
      if is_utf8_following_byte b then last_loop buf j (b :: d) else Some (b :: d)
  end.
Proof. reflexivity. Qed.

(** Walking back from the last of the continuation bytes [pre] reaches the
    lead byte and stops there. *)
Lemma last_loop_walk lead pre : forall suf d,
  0 <= lead < 256 -> is_utf8_following_byte lead = false ->
  Forall continuation pre ->
  last_loop (string_of_bytes (lead :: pre ++ suf)) (List.length pre) d =
  Some (lead :: pre ++ d).
Proof.
  induction pre as [|x pre IH] using rev_ind; intros suf d Hlead Hnf Hpre.
  - simpl List.length. unfold last_loop.
    rewrite (c_str_read_bytes _ O lead) by done. by rewrite Hnf.
  - apply Forall_app in Hpre as [Hpre Hx].
    apply Forall_inv in Hx. unfold continuation in Hx.
    rewrite length_app. simpl List.length.
    replace (List.length pre + 1)%nat with (S (List.length pre)) by lia.
    rewrite last_loop_S, <- app_assoc. simpl app.
    assert (c_str_read (string_of_bytes (lead :: pre ++ x :: suf))
              (Z.of_nat (S (List.length pre))) = Some x) as Hread.
    { apply c_str_read_bytes; [|lia]. simpl. by apply list_lookup_middle. }
    rewrite Hread, following_test by lia.
    destruct (Z.leb_spec 128 x); [|lia]. destruct (Z.ltb_spec x 192); [|lia].
    simpl andb. cbv iota.
    rewrite (IH (x :: suf) (x :: d)) by done.
    by rewrite <- app_assoc.
Qed.

(** Both helpers on the word whose bytes are one lead byte and its
    continuation bytes hand exactly these bytes to the decoder. *)
Lemma get_first_ucs4_single lead conts :
  0 < lead < 256 -> Forall continuation conts ->
  get_first_ucs4 (string_of_bytes (lead :: conts)) =
  utf8_to_ucs4 (lead :: conts).
Proof.
  intros Hlead Hc. unfold get_first_ucs4.
  rewrite (c_str_read_bytes _ O lead) by (done || lia). simpl.
  destruct (Z.eqb_spec lead 0); [lia|].
  rewrite (first_loop_bytes _ Hc), byte_val_chr by lia. done.
Qed.

Lemma get_last_ucs4_single lead conts :
  0 < lead < 256 -> is_utf8_following_byte lead = false ->
  Forall continuation conts ->
  get_last_ucs4 (string_of_bytes (lead :: conts)) =
  utf8_to_ucs4 (lead :: conts).
Proof.
  intros Hlead Hnf Hc. unfold get_last_ucs4.
  rewrite length_string_of_bytes. simpl List.length.
  replace (Z.of_nat (S (List.length conts)) - 1)
    with (Z.of_nat (List.length conts)) by lia.
  assert (exists b, (lead :: conts) !! List.length conts = Some b /\ 0 < b < 256)
    as (b & Hb & Hb0).
  { destruct conts as [|c conts _] using rev_ind; [by exists lead|].
    exists c. apply Forall_app in Hc as [_ Hc]. apply Forall_inv in Hc.
    unfold continuation in Hc. split; [|lia].
    rewrite length_app. simpl.
    replace (List.length conts + 1)%nat with (S (List.length conts)) by lia.
    simpl. by apply list_lookup_middle. }
  rewrite (c_str_read_bytes _ _ b) by (done || lia).
  cbn -[string_of_bytes last_loop Z.to_nat Z.of_nat].
  destruct (Z.eqb_spec b 0); [lia|].
  rewrite Nat2Z.id.
  pose proof (last_loop_walk lead conts [] [] ltac:(lia) Hnf Hc) as Hw.
  rewrite !app_nil_r in Hw. rewrite Hw. done.
Qed.

Lemma utf8_encode_2 cp :
  0x80 <= cp < 0x800 -> utf8_encode cp = [192 + cp / 64; 128 + cp mod 64].
Proof.
  intros Hcp. unfold utf8_encode.
  destruct (Z.ltb_spec cp 128); [lia|]. by destruct (Z.ltb_spec cp 2048); [|lia].
Qed.

Lemma utf8_encode_3 cp :
  0x800 <= cp < 0x10000 ->
  utf8_encode cp = [224 + cp / 4096; 128 + (cp / 64) mod 64; 128 + cp mod 64].
Proof.
  intros Hcp. unfold utf8_encode.
  destruct (Z.ltb_spec cp 128); [lia|]. destruct (Z.ltb_spec cp 2048); [lia|].
  by destruct (Z.ltb_spec cp 65536); [|lia].
Qed.

Lemma utf8_encode_4 cp :
  0x10000 <= cp ->
  utf8_encode cp = [240 + cp / 262144; 128 + (cp / 4096) mod 64;
                    128 + (cp / 64) mod 64; 128 + cp mod 64].
Proof.
  intros Hcp. unfold utf8_encode.
  destruct (Z.ltb_spec cp 128); [lia|]. destruct (Z.ltb_spec cp 2048); [lia|].
  by destruct (Z.ltb_spec cp 65536); [lia|].
Qed.

(** The encoding is a lead byte that is not a continuation byte, followed
    by continuation bytes only. *)
Lemma utf8_encode_shape cp :
  0 <= cp <= 0x10FFFF ->
  exists lead conts,
    utf8_encode cp = lead :: conts /\ 0 <= lead < 256 /\
    (lead = 0 <-> cp = 0) /\
    is_utf8_following_byte lead = false /\ Forall continuation conts.
Proof.
  intros Hcp.
  assert (forall b, 0 <= b < 128 \/ 192 <= b < 256 ->
                    is_utf8_following_byte b = false) as Hlead.
  { intros b Hb. rewrite following_test by lia.
    destruct (Z.leb_spec 128 b), (Z.ltb_spec b 192); simpl; auto; lia. }
  destruct (Z.lt_ge_cases cp 0x80) as [H1|H1];
    [|destruct (Z.lt_ge_cases cp 0x800) as [H2|H2];
      [|destruct (Z.lt_ge_cases cp 0x10000) as [H3|H3]]].
  - exists cp, []. unfold utf8_encode. destruct (Z.ltb_spec cp 128); [|lia].
    repeat split; auto; try lia. apply Hlead. lia.
  - eexists _, _. rewrite utf8_encode_2 by lia.
    split; [reflexivity|]. unfold continuation.
    repeat split; try (Z.div_mod_to_equations; lia).
    + apply Hlead. Z.div_mod_to_equations; lia.
    + repeat constructor; Z.div_mod_to_equations; lia.
  - eexists _, _. rewrite utf8_encode_3 by lia.
    split; [reflexivity|]. unfold continuation.
    repeat split; try (Z.div_mod_to_equations; lia).
    + apply Hlead. Z.div_mod_to_equations; lia.
    + repeat constructor; Z.div_mod_to_equations; lia.
  - eexists _, _. rewrite utf8_encode_4 by lia.
    split; [reflexivity|]. unfold continuation.
    repeat split; try (Z.div_mod_to_equations; lia).
    + apply Hlead. Z.div_mod_to_equations; lia.
    + repeat constructor; Z.div_mod_to_equations; lia.
Qed.

Lemma utf8_to_ucs4_encode cp :
  0 <= cp <= 0x10FFFF -> utf8_to_ucs4 (utf8_encode cp) = Some cp.
Proof.
  intros Hcp.
  destruct (Z.lt_ge_cases cp 0x80) as [H1|H1];
    [|destruct (Z.lt_ge_cases cp 0x800) as [H2|H2];
      [|destruct (Z.lt_ge_cases cp 0x10000) as [H3|H3]]].
  - unfold utf8_encode. destruct (Z.ltb_spec cp 128); [|lia].
    apply decode_1. lia.
  - rewrite utf8_encode_2, decode_2 by (Z.div_mod_to_equations; lia).
    f_equal. Z.div_mod_to_equations; lia.
  - rewrite utf8_encode_3, decode_3 by (Z.div_mod_to_equations; lia).
    f_equal. Z.div_mod_to_equations; lia.
  - rewrite utf8_encode_4, decode_4 by (Z.div_mod_to_equations; lia).
    f_equal. Z.div_mod_to_equations; lia.
Qed.

(** C3 (the defect): for the empty word [get_last_ucs4] starts at
    [s.c_str() + s.size() - 1], one byte before the storage of the string,
    and reads there before any space is substituted; no result is defined
    for it.  [get_first_ucs4] starts at index 0, reads the terminating NUL,
    substitutes the space and returns 32. *)
Theorem get_last_ucs4_empty_reads_before_storage :
  c_str_read EmptyString (Z.of_nat (String.length EmptyString) - 1) = None /\
  get_last_ucs4 EmptyString = None /\
  get_first_ucs4 EmptyString = Some 32.
Proof. repeat split; reflexivity. Qed.

(** C6, as stated, fails at U+0000: its encoding is the single byte 0, and
    on the word made of that byte both helpers take the byte for the
    terminator, substitute a space and return 32. *)
Lemma single_codepoint_roundtrip_fails_at_nul :
  ~ (forall cp, 0 <= cp <= 0x10FFFF ->
       utf8_to_ucs4 (utf8_encode cp) = Some cp /\
       get_first_ucs4 (string_of_bytes (utf8_encode cp)) = Some cp /\
       get_last_ucs4 (string_of_bytes (utf8_encode cp)) = Some cp).
Proof.
  intros Hall. destruct (Hall 0 ltac:(lia)) as (_ & Hfirst & _).
  vm_compute in Hfirst. discriminate.
Qed.

(** C6 (amended): decoding the UTF-8 encoding of any codepoint up to
    U+10FFFF gives the codepoint back; for every codepoint other than
    U+0000 the first and the last codepoint of the word made of that
    encoding are the codepoint as well, and for U+0000 both are 32. *)
Theorem single_codepoint_roundtrip cp :
  0 <= cp <= 0x10FFFF ->
  utf8_to_ucs4 (utf8_encode cp) = Some cp /\
  get_first_ucs4 (string_of_bytes (utf8_encode cp)) =
    Some (if cp =? 0 then 32 else cp) /\
  get_last_ucs4 (string_of_bytes (utf8_encode cp)) =
    Some (if cp =? 0 then 32 else cp).
Proof.
  intros Hcp. split; [by apply utf8_to_ucs4_encode|].
  destruct (Z.eqb_spec cp 0) as [->|Hnz]; [by vm_compute|].
  destruct (utf8_encode_shape cp Hcp) as (lead & conts & He & Hl & Hz & Hnf & Hc).
  assert (0 < lead < 256) by (destruct (Z.eq_dec lead 0); [tauto | lia]).
  pose proof (utf8_to_ucs4_encode cp Hcp) as Hdec. rewrite He in *.
  by rewrite get_first_ucs4_single, get_last_ucs4_single.
Qed.

Lemma single_codepoint_roundtrip_euro :
  utf8_to_ucs4 (utf8_encode 0x20AC) = Some 0x20AC /\
  get_first_ucs4 (string_of_bytes (utf8_encode 0x20AC)) = Some 0x20AC /\
  get_last_ucs4 (string_of_bytes (utf8_encode 0x20AC)) = Some 0x20AC.
Proof. apply (single_codepoint_roundtrip 0x20AC). lia. Defined.

End Utf8Facts.

(** ** Facts about the word cache *)

Module CacheFacts.
Import Atlas Reference.

Lemma atlas_ok_open f : atlas_ok (font_atlas_open f).
Proof.
  split; simpl; [done | | ]; intros *; by rewrite lookup_empty.
Qed.

Lemma atlas_ok_clear a : atlas_ok a -> atlas_ok (clear a).
Proof.
  intros [Ha _ _]. split; simpl; [done | | ]; intros *; by rewrite lookup_empty.
Qed.

Lemma cached_address_live a w s :
  _prerendered a !! w = Some (Some s) -> surf_id s ∈ live_addresses a.
Proof.
  intros Hin. unfold live_addresses. apply list_elem_of_omap.
  exists (w, Some s). split; [by apply elem_of_map_to_list | done].
Qed.

(** A lookup that finds no entry rasterizes once and stores the answer. *)
Lemma word_miss w a :
  atlas_ok a -> _prerendered a !! w = None ->
  let '(p, a') := TTF_RenderUTF8_Blended w a in
  atlas_ok (set_prerendered (<[w := p]> (_prerendered a')) a') /\
  surface_size <$> p = render_size (_font a) w.
Proof.
  intros [Hadv Hsz Hds] Hnone. unfold TTF_RenderUTF8_Blended.
  pose proof (alloc_fresh (render_address (_font a)) (live_addresses a))
    as Hfresh.
  destruct (render_size (_font a) w) as [[sw sh]|] eqn:Hr; simpl.
  - split; [|done]. split; simpl; [done | | ].
    + intros w' p. rewrite lookup_insert. case_decide as Hw.
      * intros [= <-]. by subst w'.
      * apply Hsz.
    + intros w1 w2 s1 s2. rewrite !lookup_insert.
      repeat case_decide; subst; try done.
      * intros [= <-] Hs%cached_address_live. simpl. intros Heq.
        rewrite Heq in Hfresh. done.
      * intros Hs%cached_address_live [= <-]. simpl. intros Heq.
        rewrite <- Heq in Hfresh. done.
      * apply Hds.
  - split; [|done]. split; simpl; [done | | ].
    + intros w' p. rewrite lookup_insert. case_decide as Hw.
      * intros [= <-]. by subst w'.
      * apply Hsz.
    + intros w1 w2 s1 s2. rewrite !lookup_insert.
      repeat case_decide; subst; try done. apply Hds.
Qed.

(** What one lookup keeps and gives. *)
Lemma word_ok w a p a' :
  atlas_ok a -> word w a = (p, a') ->
  atlas_ok a' /\ _font a' = _font a /\ _space_advance a' = _space_advance a /\
  _prerendered a' !! w = Some p /\
  surface_size <$> p = render_size (_font a) w.
Proof.
  intros Hok. unfold word.
  set (a1 := if 40000 <? Z.of_nat (size (_prerendered a)) then clear a else a).
  assert (atlas_ok a1 /\ _font a1 = _font a /\
          _space_advance a1 = _space_advance a) as (Hok1 & Hf1 & Hs1).
  { subst a1. destruct (40000 <? _); [|done].
    split; [by apply atlas_ok_clear | done]. }
  destruct (_prerendered a1 !! w) as [q|] eqn:Hq.
  - intros [= <- <-]. split_and!; try done.
    rewrite <- Hf1. by apply (ok_sizes _ Hok1).
  - pose proof (word_miss w a1 Hok1 Hq) as Hm.
    unfold TTF_RenderUTF8_Blended in *.
    destruct (render_size (_font a1) w) as [[sw sh]|] eqn:Hr;
      intros [= <- <-]; destruct Hm as [Hm1 Hm2]; simpl in *;
      rewrite lookup_insert_eq, <- Hf1; split_and!; done.
Qed.

(** A lookup of a word that is cached, made below the flush threshold,
    changes nothing and rasterizes nothing. *)
Lemma word_hit w a p :
  Z.of_nat (size (_prerendered a)) <= 40000 ->
  _prerendered a !! w = Some p -> word w a = (p, a).
Proof.
  intros Hsize Hp. unfold word.
  destruct (Z.ltb_spec 40000 (Z.of_nat (size (_prerendered a)))); [lia|].
  by rewrite Hp.
Qed.

(** Below the threshold a lookup keeps the entries that are there. *)
Lemma word_keeps w a p a' w0 p0 :
  Z.of_nat (size (_prerendered a)) <= 40000 ->
  word w a = (p, a') ->
  _prerendered a !! w0 = Some p0 -> _prerendered a' !! w0 = Some p0.
Proof.
  intros Hsize. unfold word.
  destruct (Z.ltb_spec 40000 (Z.of_nat (size (_prerendered a)))); [lia|].
  destruct (_prerendered a !! w) as [q|] eqn:Hq.
  - by intros [= <- <-].
  - unfold TTF_RenderUTF8_Blended.
    destruct (render_size (_font a) w) as [[sw sh]|]; intros [= <- <-] H0;
      simpl; rewrite lookup_insert_ne; congruence.
Qed.

(** What a lookup adds: at most one rasterization and one entry. *)
Lemma word_grows w a :
  (rasterized a <= rasterized (word w a).2 <= S (rasterized a))%nat /\
  (size (_prerendered (word w a).2) <= S (size (_prerendered a)))%nat.
Proof.
  unfold word.
  destruct (Z.ltb_spec 40000 (Z.of_nat (size (_prerendered a)))) as [Hf|Hf].
  - change (_prerendered (clear a)) with (∅ : gmap string (option surface)).
    rewrite lookup_empty. unfold TTF_RenderUTF8_Blended.
    change (_font (clear a)) with (_font a).
    destruct (render_size (_font a) w) as [[sw sh]|]; simpl;
      rewrite insert_empty, map_size_singleton; lia.
  - destruct (_prerendered a !! w) as [q|] eqn:Hq; [simpl; lia|].
    unfold TTF_RenderUTF8_Blended.
    destruct (render_size (_font a) w) as [[sw sh]|]; simpl;
      rewrite map_size_insert_None by done; lia.
Qed.

(** C7: for two words the rasterizer renders, on an atlas that satisfies
    its invariant.  The first lookup returns an image of the word, stored
    under the word, after at most one rasterization and one new entry.
    Barring a flush, a second lookup of the same word returns the same
    pointer and leaves the atlas as it is (no rasterization, no second
    entry), and the lookup of the other word returns an image too, of
    another address when the words differ, the first entry staying where it
    is. *)
Theorem word_cache_identity (a : font_atlas) (w1 w2 : string)
    (sw1 sh1 sw2 sh2 : Z) :
  atlas_ok a ->
  render_size (_font a) w1 = Some (sw1, sh1) ->
  render_size (_font a) w2 = Some (sw2, sh2) ->
  exists s1 a1,
    word w1 a = (Some s1, a1) /\ surface_size s1 = (sw1, sh1) /\
    _prerendered a1 !! w1 = Some (Some s1) /\
    (rasterized a1 <= S (rasterized a))%nat /\
    (size (_prerendered a1) <= S (size (_prerendered a)))%nat /\
    (Z.of_nat (size (_prerendered a1)) <= 40000 ->
     word w1 a1 = (Some s1, a1) /\
     exists s2 a2,
       word w2 a1 = (Some s2, a2) /\ surface_size s2 = (sw2, sh2) /\
       (w1 <> w2 ->
        surf_id s1 <> surf_id s2 /\
        _prerendered a2 !! w1 = Some (Some s1) /\
        _prerendered a2 !! w2 = Some (Some s2))).
Proof.
  intros Hok Hr1 Hr2.
  destruct (word w1 a) as [p1 a1] eqn:Hw1.
  destruct (word_ok _ _ _ _ Hok Hw1) as (Hok1 & Hf1 & _ & Hin1 & Hsz1).
  rewrite Hr1 in Hsz1. destruct p1 as [s1|]; [|done].
  apply (inj Some) in Hsz1.
  pose proof (word_grows w1 a) as [Hras Hgrow]. rewrite Hw1 in Hras, Hgrow.
  simpl in Hras, Hgrow.
  exists s1, a1. split_and!; [done | done | done | lia | lia |].
  intros Hsize. split; [by apply word_hit|].
  destruct (word w2 a1) as [p2 a2] eqn:Hw2.
  destruct (word_ok _ _ _ _ Hok1 Hw2) as (Hok2 & _ & _ & Hin2 & Hsz2).
  rewrite Hf1, Hr2 in Hsz2. destruct p2 as [s2|]; [|done].
  apply (inj Some) in Hsz2.
  exists s2, a2. split_and!; try done.
  intros Hne.
  pose proof (word_keeps _ _ _ _ _ _ Hsize Hw2 Hin1) as Hin1'.
  split_and!; try done.
  intros Hid. apply Hne. exact (ok_distinct _ Hok2 _ _ _ _ Hin1' Hin2 Hid).
Qed.

Lemma word_cache_identity_witness :
  atlas_ok (font_atlas_open (flat_font 10 10 20 18)) /\
  (word "aaaa" (font_atlas_open (flat_font 10 10 20 18))).1
    = Some (Surface 1 40 18) /\
  (word "bbbb" (word "aaaa" (font_atlas_open (flat_font 10 10 20 18))).2).1
    = Some (Surface 2 40 18) /\
  exists s1 a1,
    word "aaaa" (font_atlas_open (flat_font 10 10 20 18)) = (Some s1, a1) /\
    surface_size s1 = (40, 18) /\
    _prerendered a1 !! "aaaa" = Some (Some s1) /\
    (rasterized a1 <= 1)%nat /\
    (size (_prerendered a1) <= 1)%nat /\
    (Z.of_nat (size (_prerendered a1)) <= 40000 ->
     word "aaaa" a1 = (Some s1, a1) /\
     exists s2 a2,
       word "bbbb" a1 = (Some s2, a2) /\ surface_size s2 = (40, 18) /\
       ("aaaa" <> "bbbb" ->
        surf_id s1 <> surf_id s2 /\
        _prerendered a2 !! "aaaa" = Some (Some s1) /\
        _prerendered a2 !! "bbbb" = Some (Some s2))).
Proof.
  split_and!; [apply atlas_ok_open | by vm_compute | by vm_compute |].
  exact (word_cache_identity (font_atlas_open (flat_font 10 10 20 18))
           "aaaa" "bbbb" 40 18 40 18 (atlas_ok_open _) eq_refl eq_refl).
Defined.

End CacheFacts.

(** ** Facts about the size query *)

Module MeasureFacts.
Import Bytes Tokenizer Atlas Reference IntFacts CacheFacts.

(** On an atlas that satisfies its invariant the loop of [text_size]
    computes what the font alone determines, and keeps the invariant. *)
Lemma text_size_loop_measure ws : forall max_line_width st a,
  atlas_ok a ->
  fst <$> text_size_loop ws max_line_width st a =
    measure_loop (_font a) ws max_line_width st /\
  (forall r a', text_size_loop ws max_line_width st a = Some (r, a') ->
                atlas_ok a' /\ _font a' = _font a).
Proof.
  induction ws as [|w ws IH]; intros M st a Hok; simpl.
  - unfold font_line_skip.
    destruct (int_mul (lines st) _) as [height|]; simpl; [|done].
    split; [done|]. by intros r a' [= <- <-].
  - destruct (word w a) as [p a1] eqn:Hw.
    destruct (word_ok _ _ _ _ Hok Hw) as (Hok1 & Hf1 & Hs1 & _ & Hsz).
    rewrite <- Hsz.
    destruct p as [surf|]; simpl; [|done].
    rewrite Hs1, (ok_advance _ Hok), <- Hf1.
    destruct (int_add (surf_w surf) _) as [aw|]; simpl; [|done].
    destruct (int_add aw _) as [sum|]; simpl; [|done].
    destruct (sum >=? M); [destruct (surf_w surf >=? M)|].
    + split; [done|]. by intros r a' [= <- <-].
    + destruct (int_add (lines st) 1) as [l'|]; simpl; [|done].
      by apply IH.
    + destruct (int_add (current_line_width st) aw) as [cw'|]; simpl; [|done].
      destruct (int_add (current_line_num_words st) 1) as [n'|]; simpl;
        [|done].
      by apply IH.
Qed.

Lemma text_size_measure t max_line_width a :
  atlas_ok a -> max_line_width <> -1 ->
  fst <$> text_size t max_line_width a = measure (_font a) t max_line_width /\
  (forall r a', text_size t max_line_width a = Some (r, a') ->
                atlas_ok a' /\ _font a' = _font a).
Proof.
  intros Hok Hb. unfold text_size, measure.
  destruct (Z.eqb_spec max_line_width (-1)); [done|].
  destruct (split_words t) as [|w0 ws]; [split; [done|]; by intros r a' [= <- <-]|].
  destruct (word w0 a) as [p a1] eqn:Hw.
  destruct (word_ok _ _ _ _ Hok Hw) as (Hok1 & Hf1 & Hs1 & _ & Hsz).
  rewrite <- Hsz. destruct p as [surf|]; simpl; [|done].
  destruct (text_size_loop_measure (w0 :: ws) max_line_width
              {| actual_max_width := 0; lines := 1;
                 current_line_num_words := 1;
                 current_line_width := surf_w surf |} a1 Hok1) as [Ha Hb'].
  rewrite Hf1 in *. split; [done|]. intros r a' Hr. by apply Hb' in Hr.
Qed.




(** C5: in a round of the bounded loop whose sums fit an [int], a word
    that cannot go on the current line and whose image is as wide as
    [max_line_width] or wider ends the query with [(-1, -1)] at once: the
    words after it are not looked at and nothing is split.  So the query on
    ["x"] with one pixel less than the width of its image fails, the width
    being positive, the space advance not negative, and twice the width
    plus the space advance fitting an [int]. *)
Theorem measure_oversized_word_fails (a : font_atlas) (wx hx : Z) :
  atlas_ok a -> render_size (_font a) "x" = Some (wx, hx) ->
  0 < wx -> 0 <= space_glyph_advance (_font a) ->
  wx + space_glyph_advance (_font a) + wx < 2 ^ 31 ->
  (forall w ws max_line_width st a0 surf a1,
     word w a0 = (Some surf, a1) ->
     int_range (surf_w surf + _space_advance a1) ->
     int_range (surf_w surf + _space_advance a1 + current_line_width st) ->
     max_line_width
       <= surf_w surf + _space_advance a1 + current_line_width st ->
     max_line_width <= surf_w surf ->
     text_size_loop (w :: ws) max_line_width st a0 = Some ((-1, -1), a1)) /\
  exists a', text_size "x" (wx - 1) a = Some ((-1, -1), a').
Proof.
  intros Hok Hx Hwx Hsa Hfit. split.
  - intros w ws M st a0 surf a1 Hw Haw Hsum Hfull Hwide.
    simpl. rewrite Hw. simpl.
    rewrite (int_add_fits _ _ Haw). simpl.
    rewrite (int_add_fits _ _ Hsum). simpl.
    rewrite !Z.geb_leb.
    destruct (Z.leb_spec M (surf_w surf + _space_advance a1 + current_line_width st));
      [|lia].
    by destruct (Z.leb_spec M (surf_w surf)); [|lia].
  - destruct (text_size_measure "x" (wx - 1) a Hok ltac:(lia)) as [Hm _].
    unfold measure in Hm. rewrite TokenizerFacts.split_words_tokens in Hm.
    change (tokens "x") with ["x"] in Hm.
    cbn -[Z.mul Z.add Z.sub Z.geb Z.max int_add int_mul] in Hm. rewrite Hx in Hm.
    cbn -[Z.mul Z.add Z.sub Z.geb Z.max int_add int_mul] in Hm.
    repeat (rewrite int_add_fits in Hm by (unfold int_range; lia);
            cbn -[Z.mul Z.add Z.sub Z.geb Z.max int_add int_mul] in Hm).
    rewrite !Z.geb_leb in Hm.
    destruct (Z.leb_spec (wx - 1) (wx + space_glyph_advance (_font a) + wx));
      [|lia].
    destruct (Z.leb_spec (wx - 1) wx); [|lia].
    destruct (text_size _ _ a) as [[r a']|]; [|done].
    injection Hm as ->. by exists a'.
Qed.

(** C10: in bounded mode a text without words gives [(0, 0)], which is
    not the failure pair, and leaves the atlas as it is; [text] on the same
    input makes a canvas of width 0 and of the height of the font. *)
Theorem measure_no_words (t : string) (max_line_width : Z) (a : font_atlas) :
  max_line_width <> -1 -> split_words t = [] ->
  text_size t max_line_width a = Some ((0, 0), a) /\
  (0, 0) <> (-1, -1) /\
  text t max_line_width a = Some (Canvas 0 (font_height a) [], a).
Proof.
  intros Hb Hw. unfold text_size, text. rewrite Hw.
  destruct (Z.eqb_spec max_line_width (-1)); [done|].
  split_and!; [done | done |]. by destruct t.
Qed.

(** The texts without words are the texts made of spaces only. *)
Lemma split_words_nil_iff t :
  split_words t = [] <-> t = String.concat "" (repeat " " (String.length t)).
Proof.
  rewrite TokenizerFacts.split_words_tokens. unfold tokens.
  induction t as [|c r IH]; simpl; [done|].
  destruct (Ascii.eqb_spec c " "%char) as [->|Hc]; simpl.
  - rewrite IH. clear IH. split.
    + intros Hr. destruct (String.length r); simpl in *;
        [by subst r | by rewrite <- Hr].
    + intros Hr. destruct (String.length r) eqn:Hl; simpl in *.
      * destruct r; [done | discriminate].
      * by injection Hr.
  - split.
    + pose proof (TokenizerFacts.fields_nonnil r). by destruct (fields r).
    + destruct (String.length r); simpl; intros [= ? _]; by subst c.
Qed.

(** *** A wider budget does not need more lines *)

Lemma measure_loop_monotone f ws : forall M1 M2 st1 st2 r1 r2,
  font_sane f -> M2 <= M1 ->
  not_behind st1 st2 -> 0 <= current_line_width st2 ->
  measure_loop f ws M1 st1 = Some r1 -> measure_loop f ws M2 st2 = Some r2 ->
  r1 <> (-1, -1) -> r2 <> (-1, -1) ->
  snd r1 <= snd r2.
Proof.
  induction ws as [|w ws IH]; intros M1 M2 st1 st2 r1 r2 Hsane HM Hnb Hpos;
    simpl.
  - destruct (int_mul (lines st1) _) as [h1|] eqn:H1; simpl; [|done].
    destruct (int_mul (lines st2) _) as [h2|] eqn:H2; simpl; [|done].
    apply int_mul_Some in H1 as [-> _]. apply int_mul_Some in H2 as [-> _].
    intros [= <-] [= <-] _ _. simpl.
    pose proof (sane_line_skip _ Hsane).
    apply Z.mul_le_mono_nonneg_r; [done|].
    unfold not_behind in Hnb. lia.
  - destruct (render_size f w) as [[sw sh]|] eqn:Hr; simpl; [|done].
    pose proof (sane_width _ Hsane _ _ _ Hr) as Hsw.
    pose proof (sane_advance _ Hsane) as Hsa.
    destruct (int_add sw _) as [aw|] eqn:Haw; simpl; [|done].
    apply int_add_Some in Haw as [-> _].
    destruct (int_add _ (current_line_width st1)) as [s1|] eqn:Hs1; simpl;
      [|done].
    destruct (int_add _ (current_line_width st2)) as [s2|] eqn:Hs2; simpl;
      [|done].
    apply int_add_Some in Hs1 as [-> _]. apply int_add_Some in Hs2 as [-> _].
    rewrite !Z.geb_leb.
    unfold not_behind in Hnb.
    destruct (Z.leb_spec M1 (sw + space_glyph_advance f + current_line_width st1));
      [destruct (Z.leb_spec M1 sw)|];
      (destruct (Z.leb_spec M2 (sw + space_glyph_advance f + current_line_width st2));
       [destruct (Z.leb_spec M2 sw)|]);
      repeat match goal with
             | |- context [int_add ?x ?y] =>
                 let v := fresh "v" in let Hv := fresh "Hv" in
                 destruct (int_add x y) as [v|] eqn:Hv; simpl; [|done];
                 apply int_add_Some in Hv as [-> _]
             end;
      intros Hrun1 Hrun2 Hn1 Hn2; try congruence;
      (eapply (IH M1 M2);
       [done | done | | | exact Hrun1 | exact Hrun2 | done | done]);
      unfold not_behind; simpl; lia.
Qed.

(** C8: for one text and one font whose sizes are not negative, two bounded
    budgets [W2 <= W1] and two queries that both answer something else than
    the failure pair, the height for [W1] is at most the height for [W2].
    The two queries may start from any two states of the atlas. *)
Theorem measure_height_monotone (t : string) (W1 W2 : Z) (a1 a2 : font_atlas)
    (r1 r2 : vec) (a1' a2' : font_atlas) :
  atlas_ok a1 -> atlas_ok a2 -> _font a1 = _font a2 -> font_sane (_font a1) ->
  W1 <> -1 -> W2 <> -1 -> W2 <= W1 ->
  text_size t W1 a1 = Some (r1, a1') -> text_size t W2 a2 = Some (r2, a2') ->
  r1 <> (-1, -1) -> r2 <> (-1, -1) ->
  snd r1 <= snd r2.
Proof.
  intros Hok1 Hok2 Hf Hsane Hb1 Hb2 HW Hr1 Hr2 Hn1 Hn2.
  destruct (text_size_measure t W1 a1 Hok1 Hb1) as [Hm1 _].
  destruct (text_size_measure t W2 a2 Hok2 Hb2) as [Hm2 _].
  rewrite Hr1 in Hm1. rewrite Hr2, <- Hf in Hm2. simpl in Hm1, Hm2.
  unfold measure in Hm1, Hm2.
  destruct (split_words t) as [|w0 ws]; [injection Hm1 as ->; injection Hm2 as ->; done|].
  destruct (render_size (_font a1) w0) as [[sw sh]|] eqn:Hw0; [|done].
  set (st := {| actual_max_width := 0; lines := 1;
                current_line_num_words := 1; current_line_width := sw |}).
  assert (measure_loop (_font a1) (w0 :: ws) W1 st = Some r1) as Hl1
    by (symmetry; exact Hm1).
  assert (measure_loop (_font a1) (w0 :: ws) W2 st = Some r2) as Hl2
    by (symmetry; exact Hm2).
  refine (measure_loop_monotone _ _ W1 W2 st st r1 r2 Hsane HW _ _ Hl1 Hl2 Hn1 Hn2).
  - right. lia.
  - exact (sane_width _ Hsane _ _ _ Hw0).
Qed.

Lemma flat_font_sane cw sa skip h :
  0 <= cw -> 0 <= sa -> 0 <= skip -> font_sane (flat_font cw sa skip h).
Proof.
  intros Hcw Hsa Hskip. split; simpl; [done | done |].
  intros w sw sh. destruct w; [done|]. intros [= <- _]. lia.
Qed.


Lemma measure_oversized_word_fails_witness :
  atlas_ok (font_atlas_open (flat_font 10 10 20 18)) /\ 0 < 10 /\
  10 + 10 + 10 < 2 ^ 31 /\
  exists a', text_size "x" (10 - 1) (font_atlas_open (flat_font 10 10 20 18))
             = Some ((-1, -1), a').
Proof.
  split_and!; [apply atlas_ok_open | lia | lia |].
  pose proof (measure_oversized_word_fails
                (font_atlas_open (flat_font 10 10 20 18)) 10 18
                (atlas_ok_open _) eq_refl ltac:(lia) ltac:(simpl; lia)
                ltac:(simpl; lia))
    as [_ Hscen].
  exact Hscen.
Defined.

Lemma measure_no_words_witness :
  split_words "   " = [] /\
  text_size "   " 9 (font_atlas_open (flat_font 10 10 20 18))
    = Some ((0, 0), font_atlas_open (flat_font 10 10 20 18)).
Proof.
  split; [reflexivity|].
  apply (measure_no_words "   " 9 (font_atlas_open (flat_font 10 10 20 18)));
    [lia | reflexivity].
Defined.

Lemma measure_height_monotone_witness :
  let a := font_atlas_open (flat_font 10 10 20 18) in
  fst <$> text_size "aaaa bbbb cccc" 191 a = Some (190, 20) /\
  fst <$> text_size "aaaa bbbb cccc" 91 a = Some (90, 40) /\
  snd (190, 20) <= snd (90, 40).
Proof.
  intros a. split_and!; [by vm_compute | by vm_compute |].
  destruct (text_size "aaaa bbbb cccc" 191 a) as [[r1 a1']|] eqn:H1;
    [|vm_compute in H1; discriminate].
  destruct (text_size "aaaa bbbb cccc" 91 a) as [[r2 a2']|] eqn:H2;
    [|vm_compute in H2; discriminate].
  assert (r1 = (190, 20)) as ->
    by (apply (f_equal (fmap (M := option) fst)) in H1; vm_compute in H1;
        congruence).
  assert (r2 = (90, 40)) as ->
    by (apply (f_equal (fmap (M := option) fst)) in H2; vm_compute in H2;
        congruence).
  refine (measure_height_monotone "aaaa bbbb cccc" 191 91 a a _ _ a1' a2'
            (atlas_ok_open _) (atlas_ok_open _) eq_refl
            (flat_font_sane 10 10 20 18 _ _ _) _ _ _ H1 H2 _ _);
    (lia || discriminate).
Defined.

End MeasureFacts.

(** ** Facts about the render path *)

Module RenderFacts.
Import Bytes Utf8 Tokenizer Atlas Reference IntFacts CacheFacts.

(** C2, as stated, fails for the empty text: with a font of height 18 the
    canvas is 0 wide and 18 high, not of size zero. *)
Lemma text_empty_canvas_has_font_height :
  let a := font_atlas_open (flat_font 10 10 20 18) in
  text "" (-1) a = Some (Canvas 0 18 [], a) /\
  ~ (exists c a', text "" (-1) a = Some (c, a')
                  /\ canvas_w c = 0 /\ canvas_h c = 0).
Proof.
  split; [reflexivity|].
  intros (c & a' & Hc & _ & Hh). injection Hc as <- _. discriminate.
Qed.

(** C2 (amended): [text] on the empty text and on a text without words
    (spaces only) returns a canvas without blits, of width 0 and of the
    height of the font; both times there is a result and the atlas is left
    as it was. *)
Theorem text_without_words (t : string) (max_line_width : Z) (a : font_atlas) :
  split_words t = [] ->
  text "" max_line_width a = Some (Canvas 0 (font_height a) [], a) /\
  text t max_line_width a = Some (Canvas 0 (font_height a) [], a).
Proof.
  intros Hw. split; [reflexivity|]. unfold text. rewrite Hw. by destruct t.
Qed.

(** *** The vectors of the layout loop *)



Lemma length_update_back {A : Type} (f : A -> A) (l : list A) :
  List.length (update_back f l) = List.length l.
Proof.
  induction l as [|x l IH]; [done|].
  destruct l as [|y l]; [done|].
  change (S (List.length (update_back f (y :: l))) = S (List.length (y :: l))).
  by rewrite IH.
Qed.

Lemma update_back_Forall2 {A B : Type} (R : A -> B -> Prop) (f : A -> A)
    (g : B -> B) (l : list A) (k : list B) :
  (forall x y, R x y -> R (f x) (g y)) ->
  Forall2 R l k -> Forall2 R (update_back f l) (update_back g k).
Proof.
  intros Hfg. induction 1 as [|x y l k Hxy Hlk IH]; [constructor|].
  destruct Hlk as [|x' y' l k Hxy' Hlk]; [repeat constructor; auto|].
  change (Forall2 R (x :: update_back f (x' :: l)) (y :: update_back g (y' :: k))).
  by constructor.
Qed.

Lemma update_back_Forall {A : Type} (P : A -> Prop) (f : A -> A) (l : list A) :
  (forall x, P x -> P (f x)) -> Forall P l -> Forall P (update_back f l).
Proof.
  intros Hf. induction 1 as [|x l Hx Hl IH]; [constructor|].
  destruct Hl as [|y l Hy Hl]; [repeat constructor; auto|].
  change (Forall P (x :: update_back f (y :: l))). by constructor.
Qed.

Lemma update_back_nonnil {A : Type} (f : A -> A) (l : list A) :
  l <> [] -> update_back f l <> [].
Proof. destruct l as [|x [|y l]]; done. Qed.

Lemma concat_update_back {A : Type} (s : A) (l : list (list A)) :
  l <> [] -> concat (update_back (fun ss => ss ++ [s]) l) = concat l ++ [s].
Proof.
  induction l as [|x l IH]; [done|]. intros _.
  destruct l as [|y l].
  { cbn. by rewrite !List.app_nil_r. }
  change (x ++ concat (update_back (fun ss => ss ++ [s]) (y :: l))
          = (x ++ concat (y :: l)) ++ [s]).
  rewrite IH by done. by rewrite app_assoc.
Qed.


(** *** One round of the layout loop *)

Lemma deref_Some a p s : deref a p = Some s <-> p = (Some s, cleared a).
Proof.
  unfold deref. destruct p as [q n]; simpl. case_decide as Hn; split.
  - intros ->. by rewrite Hn.
  - by intros [= -> _].
  - done.
  - intros [= _ ->]. done.
Qed.


(** What a round that has a result did. *)
Lemma layout_join_Some a M wn wn1 sn1 L L' :
  layout_join a M wn wn1 sn1 L = Some L' ->
  exists jw s,
    join_width_of a wn wn1 = Some jw /\ sn1 = (Some s, cleared a) /\
    ((M = -1 \/ back 0 (widths L) + jw + surf_w s < M) /\
     L' = {| widths :=
               update_back (fun _ => back 0 (widths L) + jw + surf_w s)
                 (widths L);
             spaces_per_line :=
               update_back (fun l => l ++ [jw]) (spaces_per_line L);
             surfaces_per_line :=
               update_back (fun l => l ++ [s]) (surfaces_per_line L) |}
     \/
     ~ (M = -1 \/ back 0 (widths L) + jw + surf_w s < M) /\
     L' = {| widths := widths L ++ [surf_w s];
             spaces_per_line := spaces_per_line L ++ [[0]];
             surfaces_per_line := surfaces_per_line L ++ [[s]] |}).
Proof.
  unfold layout_join.
  destruct (join_width_of a wn wn1) as [jw|]; simpl; [|done].
  destruct (deref a sn1) as [s|] eqn:Hs; simpl; [|done].
  apply deref_Some in Hs.
  destruct (int_add _ jw) as [x|] eqn:Hx; simpl; [|done].
  apply int_add_Some in Hx as [-> _].
  destruct (int_add _ (surf_w s)) as [nw|] eqn:Hnw; simpl; [|done].
  apply int_add_Some in Hnw as [-> _].
  intros HL. exists jw, s. split; [done|]. split; [done|].
  destruct (Z.eqb_spec M (-1)) as [HM|HM]; simpl in HL.
  { left. split; [by left | by injection HL]. }
  destruct (Z.ltb_spec (back 0 (widths L) + jw + surf_w s) M) as [Hc|Hc];
    injection HL as <-.
  - left. split; [by right | done].
  - right. split; [lia | done].
Qed.

(** One round of the layout loop keeps the shape, adds the image at the
    end and at most one line. *)
Lemma layout_join_ok a M wn wn1 sn1 L L' :
  layout_ok L -> layout_join a M wn wn1 sn1 L = Some L' ->
  layout_ok L' /\
  (exists s, sn1 = (Some s, cleared a) /\
     concat (surfaces_per_line L') = concat (surfaces_per_line L) ++ [s]) /\
  (List.length (widths L) <= List.length (widths L')
   <= S (List.length (widths L)))%nat /\
  (M = -1 -> List.length (widths L') = List.length (widths L)).
Proof.
  intros [Hne Hw Hoff] HL.
  destruct (layout_join_Some _ _ _ _ _ _ _ HL)
    as (jw & s & _ & -> & [[Hc ->]|[Hc ->]]); simpl.
  - split_and!.
    + split; simpl.
      * by apply update_back_nonnil.
      * by rewrite !length_update_back.
      * apply update_back_Forall2; [|done].
        intros ss sps Hl. rewrite !length_app. simpl. lia.
    + exists s. split; [done|]. by apply concat_update_back.
    + rewrite length_update_back. lia.
    + rewrite length_update_back. lia.
    + intros _. by rewrite length_update_back.
  - split_and!.
    + split; simpl.
      * by destruct (surfaces_per_line L).
      * rewrite !length_app. simpl. lia.
      * apply Forall2_app; [done|]. by repeat constructor.
    + exists s. split; [done|]. by rewrite concat_app.
    + rewrite length_app. simpl. lia.
    + rewrite length_app. simpl. lia.
    + intros HM. exfalso. apply Hc. by left.
Qed.

Lemma layout_loop_ok a M rest : forall wn L L',
  layout_ok L -> layout_loop a M wn rest L = Some L' ->
  layout_ok L' /\
  (fun s => (Some s, cleared a)) <$> concat (surfaces_per_line L') =
    ((fun s => (Some s, cleared a)) <$> concat (surfaces_per_line L))
    ++ rest.*2 /\
  (List.length (widths L) <= List.length (widths L')
   <= List.length (widths L) + List.length rest)%nat /\
  (M = -1 -> List.length (widths L') = List.length (widths L)).
Proof.
  induction rest as [|[wn1 sn1] rest IH]; intros wn L L' Hok; simpl.
  - intros [= <-]. split_and!; [done | by rewrite List.app_nil_r | lia | lia | done].
  - destruct (layout_join a M wn wn1 sn1 L) as [L1|] eqn:Hj; simpl; [|done].
    intros Hl.
    destruct (layout_join_ok _ _ _ _ _ _ _ Hok Hj)
      as (Hok1 & (s & -> & Hc1) & Hn1 & Hu1).
    destruct (IH _ _ _ Hok1 Hl) as (Hok' & Hc' & Hn' & Hu').
    split_and!; [done | | lia | lia |].
    + rewrite Hc', Hc1, fmap_app. simpl. by rewrite <- app_assoc.
    + intros HM. rewrite (Hu' HM). by apply Hu1.
Qed.

(** *** The blit loops *)

Lemma blit_line_surfaces (y : Z) ss : forall sps x B,
  List.length ss = List.length sps ->
  blit_line x y ss sps = Some B -> B.*1.*1 = ss.
Proof.
  induction ss as [|s ss IH]; intros [|sp sps] x B Hl; simpl in *;
    try done; try (by intros [= <-]).
  destruct (int_add x sp) as [x1|]; simpl; [|done].
  destruct (int_add x1 _) as [x2|]; simpl; [|done].
  destruct (blit_line x2 y ss sps) as [R|] eqn:HR; simpl; [|done].
  intros [= <-]. simpl. f_equal. eapply IH; [|exact HR]. lia.
Qed.

Lemma blit_lines_surfaces skip sss spss : forall y B,
  Forall2 (fun (ss : list surface) (sps : list Z) =>
             List.length ss = List.length sps) sss spss ->
  blit_lines y skip sss spss = Some B -> B.*1.*1 = concat sss.
Proof.
  intros y B Hall. revert y B.
  induction Hall as [|ss sps sss spss Hl _ IH]; intros y B; simpl;
    [by intros [= <-]|].
  destruct (blit_line 0 y ss sps) as [line|] eqn:Hline; simpl; [|done].
  destruct (int_add y skip) as [y'|]; simpl; [|done].
  destruct (blit_lines y' skip sss spss) as [R|] eqn:HR; simpl; [|done].
  intros [= <-].
  by rewrite !fmap_app, (blit_line_surfaces _ _ _ _ _ Hl Hline), (IH _ _ HR).
Qed.

Lemma blit_line_rows (y : Z) ss : forall sps x B,
  blit_line x y ss sps = Some B -> Forall (fun b => b.2 = y) B.
Proof.
  induction ss as [|s ss IH]; intros [|sp sps] x B; simpl;
    try (intros [= <-]; constructor).
  destruct (int_add x sp) as [x1|]; simpl; [|done].
  destruct (int_add x1 _) as [x2|]; simpl; [|done].
  destruct (blit_line x2 y ss sps) as [R|] eqn:HR; simpl; [|done].
  intros [= <-]. constructor; [done|]. by eapply IH.
Qed.

Lemma blit_lines_rows skip sss : forall spss y B,
  blit_lines y skip sss spss = Some B ->
  Forall (fun b => exists k, 0 <= k < Z.of_nat (List.length sss) /\
                             b.2 = y + k * skip) B.
Proof.
  induction sss as [|ss sss IH]; intros [|sps spss] y B; simpl;
    try (intros [= <-]; constructor).
  destruct (blit_line 0 y ss sps) as [line|] eqn:Hline; simpl; [|done].
  destruct (int_add y skip) as [y'|] eqn:Hy; simpl; [|done].
  apply int_add_Some in Hy as [-> _].
  destruct (blit_lines _ skip sss spss) as [R|] eqn:HR; simpl; [|done].
  intros [= <-].
  apply Forall_app. split.
  - eapply Forall_impl; [by eapply blit_line_rows|].
    intros b ->. exists 0. lia.
  - eapply Forall_impl; [by eapply IH|].
    intros b (k & Hk & ->). exists (k + 1). lia.
Qed.





(** *** Held pointers and flushes *)

Lemma word_lookup w a : _prerendered (word w a).2 !! w = Some (word w a).1.
Proof.
  unfold word.
  set (a1 := if 40000 <? Z.of_nat (size (_prerendered a)) then clear a else a).
  destruct (_prerendered a1 !! w) as [q|] eqn:Hq; [done|].
  unfold TTF_RenderUTF8_Blended.
  destruct (render_size (_font a1) w) as [[sw sh]|]; simpl;
    by rewrite lookup_insert_eq.
Qed.

(** A lookup flushes or keeps the entries that are there. *)
Lemma word_cleared w a :
  (cleared a <= cleared (word w a).2)%nat /\
  (cleared (word w a).2 = cleared a ->
   forall w0 p0, _prerendered a !! w0 = Some p0 ->
                 _prerendered (word w a).2 !! w0 = Some p0).
Proof.
  unfold word.
  destruct (Z.ltb_spec 40000 (Z.of_nat (size (_prerendered a)))) as [Hf|Hf].
  - change (_prerendered (clear a)) with (∅ : gmap string (option surface)).
    rewrite lookup_empty. unfold TTF_RenderUTF8_Blended.
    change (_font (clear a)) with (_font a).
    destruct (render_size (_font a) w) as [[sw sh]|]; simpl; split; lia.
  - destruct (_prerendered a !! w) as [q|] eqn:Hq; [simpl; split; [lia|done]|].
    unfold TTF_RenderUTF8_Blended.
    destruct (render_size (_font a) w) as [[sw sh]|]; simpl;
      (split; [lia|]); intros _ w0 p0 H0;
      rewrite lookup_insert_ne; congruence.
Qed.

(** The first loop of [text]: a pointer it holds that no flush has freed
    is the cached image of its word. *)
Lemma render_words_held ws : forall a ps a1,
  render_words ws a = (ps, a1) ->
  (cleared a <= cleared a1)%nat /\
  (cleared a1 = cleared a ->
   forall w0 p0, _prerendered a !! w0 = Some p0 ->
                 _prerendered a1 !! w0 = Some p0) /\
  List.length ps = List.length ws /\
  Forall2 (fun w (p : held_pointer) =>
             p.2 = cleared a1 -> _prerendered a1 !! w = Some p.1) ws ps.
Proof.
  induction ws as [|w ws IH]; intros a ps a1; simpl.
  - intros [= <- <-]. split_and!; [lia | done | done | constructor].
  - pose proof (word_cleared w a) as [Hle Hkeep].
    pose proof (word_lookup w a) as Hin.
    destruct (word w a) as [p a0]. simpl in Hle, Hkeep, Hin.
    destruct (render_words ws a0) as [ps0 a2] eqn:Hr.
    destruct (IH _ _ _ Hr) as (Hle' & Hkeep' & Hlen & Hall).
    intros [= <- <-]. split_and!.
    + lia.
    + intros Hc w0 p0 H0. apply Hkeep'; [lia|]. apply Hkeep; [lia | done].
    + simpl. by rewrite Hlen.
    + constructor; [|done]. simpl. intros Hc. apply Hkeep'; [lia | done].
Qed.


Lemma combine_snd {A B : Type} (l : list A) : forall (k : list B),
  List.length l = List.length k -> (combine l k).*2 = k.
Proof.
  induction l as [|x l IH]; intros [|y k] Hl; simpl in *; try done.
  f_equal. apply IH. lia.
Qed.

(** What a rendering that gets past the empty cases is made of. *)
Lemma text_layout t M a c a' :
  split_words t <> [] -> text t M a = Some (c, a') ->
  exists w0 ws s0 ss L h blits,
    split_words t = w0 :: ws /\
    render_words (w0 :: ws) a = ((Some s0, cleared a') :: ss, a') /\
    layout_loop a' M w0 (combine ws ss)
      {| widths := [surf_w s0]; spaces_per_line := [[0]];
         surfaces_per_line := [[s0]] |} = Some L /\
    int_mul (font_line_skip a') (Z.of_nat (List.length (widths L))) = Some h /\
    blit_lines 0 (font_line_skip a') (surfaces_per_line L)
      (spaces_per_line L) = Some blits /\
    c = Canvas (max_element (widths L)) h blits.
Proof.
  intros Hne. unfold text. destruct t as [|ch t0]; [done|].
  destruct (split_words (String ch t0)) as [|w0 ws]; [done|].
  destruct (render_words (w0 :: ws) a) as [surfaces a1] eqn:Hr.
  destruct surfaces as [|p0 ss].
  { simpl in Hr. destruct (word w0 a), (render_words ws f). discriminate. }
  destruct (deref a1 p0) as [s0|] eqn:Hs0; simpl; [|done].
  apply deref_Some in Hs0 as ->.
  destruct (layout_loop a1 M w0 (combine ws ss) _) as [L|] eqn:HL; simpl;
    [|done].
  destruct (int_mul _ _) as [h|] eqn:Hh; simpl; [|done].
  destruct (blit_lines _ _ _ _) as [blits|] eqn:Hb; simpl; [|done].
  intros [= <- <-]. by exists w0, ws, s0, ss, L, h, blits.
Qed.

Lemma first_layout_ok s0 :
  layout_ok {| widths := [surf_w s0]; spaces_per_line := [[0]];
               surfaces_per_line := [[s0]] |}.
Proof. split; simpl; [done | done | by repeat constructor]. Qed.





Lemma text_without_words_witness :
  split_words "   " = [] /\
  text "   " 9 (font_atlas_open (flat_font 10 10 20 18))
    = Some (Canvas 0 18 [], font_atlas_open (flat_font 10 10 20 18)).
Proof.
  split; [reflexivity|].
  apply (text_without_words "   " 9 (font_atlas_open (flat_font 10 10 20 18))).
  reflexivity.
Defined.


(** The scenario of the render path on the flat font: one line for
    ["hello world"] without a budget. *)
Example text_hello_world :
  fst <$> text "hello world" (-1) (font_atlas_open (flat_font 10 10 20 18)) =
  Some (Canvas 110 20 [(Surface 1 50 18, 0, 0); (Surface 2 50 18, 60, 0)]).
Proof. by vm_compute. Qed.

End RenderFacts.

(** ** More on the decoder: malformed input and words of several codepoints *)

Module DecoderProps.
Import Bytes Utf8 Reference Utf8Facts.

Lemma utf8_loop_app cs : forall t cc m sh tb rest v,
  utf8_loop t cc m sh tb cs = Some v ->
  utf8_loop t cc m sh tb (cs ++ rest) = Some v.
Proof.
  induction cs as [|c cs IH]; intros t cc m sh tb rest v; simpl.
  - destruct rest; simpl; by destruct (Z.land t 192 =? 192).
  - destruct (Z.land t 192 =? 192); [apply IH | done].
Qed.

(** X1: Once the decoder has a result on a deque, bytes queued behind do not
    change it: the lead byte alone decides how many bytes are consumed. *)
Theorem utf8_to_ucs4_ignores_tail (coded rest : list Z) (v : Z) :
  utf8_to_ucs4 coded = Some v -> utf8_to_ucs4 (coded ++ rest) = Some v.
Proof.
  destruct coded as [|t cs]; [done|]. simpl.
  destruct (t <? 128); [done|].
  destruct (utf8_loop t 0 (Z.shiftl 1 6 - 1) 0 0 cs) as [u|] eqn:Hu; [|done].
  intros Hv. by rewrite (utf8_loop_app _ _ _ _ _ _ rest _ Hu).
Qed.

Lemma utf8_to_ucs4_ignores_tail_witness :
  utf8_to_ucs4 [0xE2; 0x82; 0xAC] = Some 0x20AC /\
  utf8_to_ucs4 ([0xE2; 0x82; 0xAC] ++ [0x41; 0xFF]) = Some 0x20AC.
Proof.
  split; [reflexivity|].
  apply (utf8_to_ucs4_ignores_tail [0xE2; 0x82; 0xAC] [0x41; 0xFF] 0x20AC).
  reflexivity.
Defined.

Lemma utf8_loop_starved t cc m sh tb :
  192 <= t < 256 -> utf8_loop t cc m sh tb [] = None.
Proof.
  intros Ht. simpl. rewrite lead_test by lia.
  by destruct (Z.leb_spec 192 t); [|lia].
Qed.

(** X2: A multi-byte encoding cut short has no decoding: the loop asks for the
    front of the exhausted deque. *)
Theorem utf8_to_ucs4_truncated (cp : Z) (k : nat) :
  0x80 <= cp <= 0x10FFFF ->
  (0 < k < List.length (utf8_encode cp))%nat ->
  utf8_to_ucs4 (take k (utf8_encode cp)) = None.
Proof.
  intros Hcp Hk.
  destruct (Z.lt_ge_cases cp 0x800) as [H2|H2];
    [|destruct (Z.lt_ge_cases cp 0x10000) as [H3|H3]].
  - rewrite utf8_encode_2 in * by lia. simpl in Hk.
    assert (k = 1%nat) as -> by lia. simpl take. unfold utf8_to_ucs4.
    destruct (Z.ltb_spec (192 + cp / 64) 128);
      [Z.div_mod_to_equations; lia|].
    by rewrite utf8_loop_starved by (Z.div_mod_to_equations; lia).
  - rewrite utf8_encode_3 in * by lia. simpl in Hk.
    assert (k = 1%nat \/ k = 2%nat) as [-> | ->] by lia; simpl take;
      unfold utf8_to_ucs4;
      (destruct (Z.ltb_spec (224 + cp / 4096) 128);
       [Z.div_mod_to_equations; lia|]).
    + by rewrite utf8_loop_starved by (Z.div_mod_to_equations; lia).
    + rewrite utf8_loop_more by (Z.div_mod_to_equations; lia).
      by rewrite utf8_loop_starved by (Z.div_mod_to_equations; lia).
  - rewrite utf8_encode_4 in * by lia. simpl in Hk.
    assert (k = 1%nat \/ k = 2%nat \/ k = 3%nat) as [-> | [-> | ->]] by lia;
      simpl take; unfold utf8_to_ucs4;
      (destruct (Z.ltb_spec (240 + cp / 262144) 128);
       [Z.div_mod_to_equations; lia|]).
    + by rewrite utf8_loop_starved by (Z.div_mod_to_equations; lia).
    + rewrite utf8_loop_more by (Z.div_mod_to_equations; lia).
      by rewrite utf8_loop_starved by (Z.div_mod_to_equations; lia).
    + rewrite utf8_loop_more by (Z.div_mod_to_equations; lia).
      rewrite utf8_loop_more by (Z.div_mod_to_equations; lia).
      by rewrite utf8_loop_starved by (Z.div_mod_to_equations; lia).
Qed.

Lemma utf8_to_ucs4_truncated_witness :
  utf8_to_ucs4 (take 2 (utf8_encode 0x20AC)) = None.
Proof.
  apply (utf8_to_ucs4_truncated 0x20AC 2); [lia | simpl; lia].
Defined.

(** X3: A first byte below [0xC0] is never refused and consumes nothing else:
    an ASCII byte is its own codepoint, a continuation byte met as first
    byte decodes to its low six bits. *)
Theorem utf8_to_ucs4_short_lead (t : Z) (rest : list Z) :
  0 <= t < 192 ->
  utf8_to_ucs4 (t :: rest) = Some (if t <? 128 then t else t - 128).
Proof.
  intros Ht. unfold utf8_to_ucs4.
  destruct (Z.ltb_spec t 128).
  - by rewrite to_uint32_small by lia.
  - change (Z.shiftl 1 6 - 1) with (Z.ones 6).
    rewrite utf8_loop_done by lia.
    change (2 ^ 0) with 1. rewrite Z.mul_1_r, Z.div_1_r.
    replace (t mod 2 ^ 6) with (t - 128) by (Z.div_mod_to_equations; lia).
    rewrite int_wrap_small by lia.
    change (Z.lor 0 (t - 128)) with (t - 128). simpl.
    by rewrite to_uint32_small by lia.
Qed.

Lemma utf8_to_ucs4_short_lead_witness :
  utf8_to_ucs4 [0xAC; 0x41] = Some 0x2C.
Proof. apply (utf8_to_ucs4_short_lead 0xAC [0x41]). lia. Defined.

Lemma utf8_loop_low_bits cs cs' :
  Forall2 (fun c c' => c mod 64 = c' mod 64) cs cs' ->
  forall t cc m sh tb,
    utf8_loop t cc m sh tb cs = utf8_loop t cc m sh tb cs'.
Proof.
  induction 1 as [|c c' cs cs' Hc _ IH]; intros t cc m sh tb; [done|].
  simpl. destruct (Z.land t 192 =? 192); [|done].
  change (Z.shiftl 1 6 - 1) with (Z.ones 6).
  rewrite !Z.land_ones by lia. change (2 ^ 6) with 64. rewrite Hc. apply IH.
Qed.

(** X4: The bytes behind the lead byte are not validated: only their low six
    bits enter the result, whatever their two top bits are. *)
Theorem utf8_to_ucs4_low_six_bits (t : Z) (cs cs' : list Z) :
  Forall2 (fun c c' => c mod 64 = c' mod 64) cs cs' ->
  utf8_to_ucs4 (t :: cs) = utf8_to_ucs4 (t :: cs').
Proof.
  intros Hcs. simpl. destruct (t <? 128); [done|].
  by rewrite (utf8_loop_low_bits _ _ Hcs).
Qed.

Lemma utf8_to_ucs4_low_six_bits_witness :
  utf8_to_ucs4 [0xC3; 0xA9] = utf8_to_ucs4 [0xC3; 0x29].
Proof.
  apply (utf8_to_ucs4_low_six_bits 0xC3 [0xA9] [0x29]).
  repeat constructor.
Defined.


(** *** The boundary helpers on words of several codepoints *)

Lemma first_loop_stops conts rest :
  Forall continuation conts ->
  match rest with
  | [] => True
  | b :: _ => 0 <= b < 256 /\ is_utf8_following_byte b = false
  end ->
  first_loop (string_of_bytes (conts ++ rest)) = conts.
Proof.
  intros Hc Hrest. induction Hc as [|c conts Hc _ IH]; simpl.
  - destruct rest as [|b r]; [done|]. destruct Hrest as [Hb Hnf]. simpl.
    by rewrite byte_val_chr, Hnf.
  - unfold continuation in Hc.
    rewrite byte_val_chr, following_test by lia.
    destruct (Z.leb_spec 128 c); [|lia]. destruct (Z.ltb_spec c 192); [|lia].
    simpl. by rewrite IH.
Qed.

Lemma last_loop_walk_from before lead pre : forall suf d,
  0 <= lead < 256 -> is_utf8_following_byte lead = false ->
  Forall continuation pre ->
  last_loop (string_of_bytes (before ++ lead :: pre ++ suf))
    (List.length before + List.length pre) d =
  Some (lead :: pre ++ d).
Proof.
  induction pre as [|x pre IH] using rev_ind; intros suf d Hlead Hnf Hpre.
  - simpl List.length. rewrite Nat.add_0_r.
    assert (c_str_read (string_of_bytes (before ++ lead :: [] ++ suf))
              (Z.of_nat (List.length before)) = Some lead) as Hread.
    { apply c_str_read_bytes; [|lia]. by apply list_lookup_middle. }
    destruct (List.length before) as [|n] eqn:Hn.
    + unfold last_loop. by rewrite Hread, Hnf.
    + by rewrite last_loop_S, Hread, Hnf.
  - apply Forall_app in Hpre as [Hpre Hx].
    apply Forall_inv in Hx. unfold continuation in Hx.
    rewrite length_app. simpl List.length.
    replace (List.length before + (List.length pre + 1))%nat
      with (S (List.length before + List.length pre)) by lia.
    rewrite last_loop_S, <- app_assoc. simpl app.
    assert (c_str_read (string_of_bytes (before ++ lead :: pre ++ x :: suf))
              (Z.of_nat (S (List.length before + List.length pre))) = Some x)
      as Hread.
    { apply c_str_read_bytes; [|lia].
      replace (before ++ lead :: pre ++ x :: suf)
        with ((before ++ lead :: pre) ++ x :: suf)
        by (by rewrite <- app_assoc).
      apply list_lookup_middle. rewrite length_app. simpl. lia. }
    rewrite Hread, following_test by lia.
    destruct (Z.leb_spec 128 x); [|lia]. destruct (Z.ltb_spec x 192); [|lia].
    simpl andb. cbv iota.
    rewrite (IH (x :: suf) (x :: d)) by done.
    by rewrite <- app_assoc.
Qed.

Lemma encode_all_head cps :
  cps <> [] -> Forall (fun cp => 0 < cp <= 0x10FFFF) cps ->
  match concat (utf8_encode <$> cps) with
  | [] => False
  | b :: _ => 0 <= b < 256 /\ is_utf8_following_byte b = false
  end.
Proof.
  destruct cps as [|cp cps]; [done|]. intros _ Hall.
  apply Forall_cons in Hall as [Hcp _].
  destruct (utf8_encode_shape cp ltac:(lia)) as (lead & conts & He & Hl & _ & Hnf & _).
  simpl. by rewrite He.
Qed.

(** X5: A word that is the UTF-8 encoding of a sequence of codepoints, none of
    them U+0000: its first codepoint is the first of the sequence and its
    last codepoint is the last, whatever number of bytes each takes. *)
Theorem boundary_codepoints_of_word (cps : list Z) :
  cps <> [] -> Forall (fun cp => 0 < cp <= 0x10FFFF) cps ->
  get_first_ucs4 (string_of_bytes (concat (utf8_encode <$> cps))) = head cps /\
  get_last_ucs4 (string_of_bytes (concat (utf8_encode <$> cps))) = last cps.
Proof.
  intros Hne Hall. split.
  - destruct cps as [|cp cps]; [done|]. clear Hne.
    apply Forall_cons in Hall as [Hcp Hall].
    destruct (utf8_encode_shape cp ltac:(lia))
      as (lead & conts & He & Hl & Hz & Hnf & Hc).
    pose proof (utf8_to_ucs4_encode cp ltac:(lia)) as Hdec.
    assert (0 < lead < 256) by (destruct (Z.eq_dec lead 0); [lia | lia]).
    rewrite fmap_cons. cbn [concat head]. rewrite He in *.
    rewrite <- app_comm_cons. unfold get_first_ucs4.
    rewrite (c_str_read_bytes _ O lead) by (done || lia).
    cbn -[string_of_bytes first_loop utf8_to_ucs4].
    destruct (Z.eqb_spec lead 0); [lia|].
    cbn [string_of_bytes]. rewrite byte_val_chr by lia.
    rewrite first_loop_stops; [done | done |].
    destruct cps as [|cp' cps]; [done|].
    pose proof (encode_all_head (cp' :: cps) ltac:(done) Hall) as Hh.
    by destruct (concat (utf8_encode <$> cp' :: cps)).
  - destruct cps as [|cp cps _] using rev_ind; [done|]. clear Hne.
    apply Forall_app in Hall as [_ Hcp]. apply Forall_inv in Hcp.
    rewrite last_snoc, fmap_app, concat_app. simpl. rewrite app_nil_r.
    set (before := concat (utf8_encode <$> cps)).
    destruct (utf8_encode_shape cp ltac:(lia))
      as (lead & conts & He & Hl & Hz & Hnf & Hc).
    pose proof (utf8_to_ucs4_encode cp ltac:(lia)) as Hdec.
    assert (0 < lead < 256) by (destruct (Z.eq_dec lead 0); [lia | lia]).
    rewrite He in *. unfold get_last_ucs4.
    rewrite length_string_of_bytes, length_app. simpl List.length.
    replace (Z.of_nat (List.length before + S (List.length conts)) - 1)
      with (Z.of_nat (List.length before + List.length conts)) by lia.
    assert (exists b, (before ++ lead :: conts)
                        !! (List.length before + List.length conts)%nat = Some b
                      /\ 0 < b < 256) as (b & Hb & Hb0).
    { rewrite lookup_app_r by lia.
      replace (List.length before + List.length conts - List.length before)%nat
        with (List.length conts) by lia.
      clear -Hc H. destruct conts as [|c conts _] using rev_ind; [by exists lead|].
      exists c. apply Forall_app in Hc as [_ Hc]. apply Forall_inv in Hc.
      unfold continuation in Hc. split; [|lia].
      rewrite length_app. simpl.
      replace (List.length conts + 1)%nat with (S (List.length conts)) by lia.
      simpl. by apply list_lookup_middle. }
    rewrite (c_str_read_bytes _ _ b) by (done || lia).
    cbn -[string_of_bytes last_loop Z.to_nat Z.of_nat].
    destruct (Z.eqb_spec b 0); [lia|].
    rewrite Nat2Z.id.
    pose proof (last_loop_walk_from before lead conts [] [] ltac:(lia) Hnf Hc)
      as Hw.
    rewrite !app_nil_r in Hw. rewrite Hw. done.
Qed.

Lemma boundary_codepoints_of_word_witness :
  get_first_ucs4 (string_of_bytes (concat (utf8_encode <$> [0x20AC; 0x41; 0x1F600])))
    = Some 0x20AC /\
  get_last_ucs4 (string_of_bytes (concat (utf8_encode <$> [0x20AC; 0x41; 0x1F600])))
    = Some 0x1F600.
Proof.
  apply (boundary_codepoints_of_word [0x20AC; 0x41; 0x1F600]); [done|].
  repeat constructor; lia.
Defined.

Lemma last_loop_no_lead bs : forall n d,
  (n < List.length bs)%nat -> Forall continuation bs ->
  last_loop (string_of_bytes bs) n d = None.
Proof.
  intros n. induction n as [|n IH]; intros d Hn Hall.
  - destruct bs as [|b bs]; [simpl in Hn; lia|].
    apply Forall_cons in Hall as [Hb _]. unfold continuation in Hb.
    unfold last_loop. rewrite (c_str_read_bytes _ O b) by (done || lia).
    rewrite following_test by lia.
    destruct (Z.leb_spec 128 b); [|lia]. by destruct (Z.ltb_spec b 192); [|lia].
  - destruct (lookup_lt_is_Some_2 bs (S n) Hn) as [b Hb].
    pose proof (Forall_lookup_1 _ _ _ _ Hall Hb) as Hcb.
    unfold continuation in Hcb.
    rewrite last_loop_S, (c_str_read_bytes _ _ b) by (done || lia).
    rewrite following_test by lia.
    destruct (Z.leb_spec 128 b); [|lia]. destruct (Z.ltb_spec b 192); [|lia].
    simpl. apply IH; [lia | done].
Qed.

(** X6: A word made of continuation bytes only has no last codepoint: the
    backward walk finds no lead byte and steps below the first byte of the
    string. *)
Theorem get_last_ucs4_without_lead (bs : list Z) :
  bs <> [] -> Forall continuation bs ->
  get_last_ucs4 (string_of_bytes bs) = None.
Proof.
  intros Hne Hall. unfold get_last_ucs4. rewrite length_string_of_bytes.
  assert (0 < List.length bs)%nat as Hlen by (destruct bs; [done | simpl; lia]).
  replace (Z.of_nat (List.length bs) - 1)
    with (Z.of_nat (List.length bs - 1)) by lia.
  destruct (lookup_lt_is_Some_2 bs (List.length bs - 1) ltac:(lia)) as [b Hb].
  pose proof (Forall_lookup_1 _ _ _ _ Hall Hb) as Hcb.
  unfold continuation in Hcb.
  rewrite (c_str_read_bytes _ _ b) by (done || lia).
  cbn -[string_of_bytes last_loop Z.to_nat Z.of_nat].
  destruct (Z.eqb_spec b 0); [lia|].
  rewrite Nat2Z.id, last_loop_no_lead; [done | lia | done].
Qed.

Lemma get_last_ucs4_without_lead_witness :
  get_last_ucs4 (string_of_bytes [0x82; 0xAC]) = None.
Proof.
  apply (get_last_ucs4_without_lead [0x82; 0xAC]); [done|].
  repeat constructor; lia.
Defined.

End DecoderProps.

(** ** More on the tokenizer *)

Module TokenizerProps.
Import Tokenizer Reference TokenizerFacts.

#[local] Arguments String.append !_ _ / : simpl nomatch.

Lemma fields_app_space t1 t2 :
  fields (t1 +:+ String " " t2) = fields t1 ++ fields t2.
Proof.
  induction t1 as [|c r IH]; simpl; [done|].
  destruct (Ascii.eqb c " "%char); simpl; [by rewrite IH|].
  rewrite IH. pose proof (fields_nonnil r). by destruct (fields r).
Qed.

(** X7: Splitting distributes over a space: the words of two texts joined by
    a space are the words of the first followed by the words of the
    second. *)
Theorem split_words_app_space (t1 t2 : string) :
  split_words (t1 +:+ String " " t2) = split_words t1 ++ split_words t2.
Proof.
  rewrite !split_words_tokens. unfold tokens.
  by rewrite fields_app_space, List.filter_app.
Qed.

Lemma tokens_join_spaces ws :
  Forall (fun w => space_free w = true) ws ->
  tokens (join_spaces ws) = List.filter nonempty ws.
Proof.
  intros Hall. destruct ws as [|w ws]; [done|].
  unfold tokens. by rewrite fields_join_spaces.
Qed.

Lemma filter_nonempty_id ws :
  Forall (fun w => w <> EmptyString /\ space_free w = true) ws ->
  List.filter nonempty ws = ws.
Proof.
  induction 1 as [|w ws [Hw _] _ IH]; simpl; [done|].
  destruct w; [done|]. simpl. by rewrite IH.
Qed.

(** X8: Joining the words by single spaces and splitting again gives the same
    words: the tokenizer is idempotent on its normalised text. *)
Theorem split_words_join_split (t : string) :
  split_words (join_spaces (split_words t)) = split_words t.
Proof.
  rewrite !split_words_tokens.
  pose proof (tokens_sound t) as Hs.
  rewrite tokens_join_spaces by (eapply Forall_impl; [exact Hs | by intros ? []]).
  by apply filter_nonempty_id.
Qed.

Lemma concat_fields t :
  concat (list_ascii_of_string <$> fields t) =
  List.filter (fun c => negb (Ascii.eqb c " "%char)) (list_ascii_of_string t).
Proof.
  induction t as [|c r IH]; [done|].
  cbn [fields list_ascii_of_string List.filter].
  destruct (Ascii.eqb c " "%char); cbn [negb].
  - rewrite fmap_cons. cbn [concat]. exact IH.
  - rewrite <- IH. pose proof (fields_nonnil r).
    destruct (fields r); [done|]. by rewrite !fmap_cons.
Qed.

Lemma concat_filter_nonempty ws :
  concat (list_ascii_of_string <$> List.filter nonempty ws) =
  concat (list_ascii_of_string <$> ws).
Proof.
  induction ws as [|w ws IH]; [done|].
  destruct w; cbn [List.filter nonempty]; rewrite !fmap_cons; cbn [concat].
  - exact IH.
  - by rewrite IH.
Qed.

(** X9: Nothing but spaces is lost: the characters of the words, in order, are
    the characters of the text that are not spaces. *)
Theorem split_words_keeps_characters (t : string) :
  concat (list_ascii_of_string <$> split_words t) =
  List.filter (fun c => negb (Ascii.eqb c " "%char)) (list_ascii_of_string t).
Proof.
  rewrite split_words_tokens. unfold tokens.
  by rewrite concat_filter_nonempty, concat_fields.
Qed.

End TokenizerProps.

(** ** More on the word cache *)

Module CacheProps.
Import Bytes Tokenizer Atlas Reference IntFacts CacheFacts RenderFacts.

(** X10: A lookup made above the threshold flushes first: a word that was
    cached is rasterized again, and its new image, of the same size, is
    then the only entry of the cache.  The image that was cached is freed:
    a pointer to it that is still held cannot be read any more. *)
Theorem word_flush_renews (a : font_atlas) (w : string) (s : surface) :
  atlas_ok a ->
  40000 < Z.of_nat (size (_prerendered a)) ->
  _prerendered a !! w = Some (Some s) ->
  exists s' a',
    word w a = (Some s', a') /\
    surface_size s' = surface_size s /\
    _prerendered a' = {[ w := Some s' ]} /\
    rasterized a' = S (rasterized a) /\
    deref a' (Some s, cleared a) = None.
Proof.
  intros Hok Hsize Hin.
  pose proof (ok_sizes _ Hok _ _ Hin) as Hsz. simpl in Hsz.
  unfold word.
  destruct (Z.ltb_spec 40000 (Z.of_nat (size (_prerendered a)))); [|lia].
  change (_prerendered (clear a)) with (∅ : gmap string (option surface)).
  rewrite lookup_empty. unfold TTF_RenderUTF8_Blended.
  change (_font (clear a)) with (_font a). rewrite <- Hsz.
  unfold surface_size at 1. simpl.
  eexists _, _. split; [reflexivity|]. simpl.
  split_and!; try done.
  unfold deref. simpl. case_decide; [lia | done].
Qed.

Lemma filled_cache_keys f n :
  NoDup ((fun k => (pretty k,
                    (fun '(sw, sh) => Surface (Pos.of_succ_nat k) sw sh)
                      <$> render_size f (pretty k))) <$> seq 0 n).*1.
Proof.
  rewrite <- list_fmap_compose.
  apply (NoDup_fmap_2 (fun k : nat => pretty k)), NoDup_seq.
Qed.

Lemma filled_cache_lookup f n w p :
  filled_cache f n !! w = Some p <->
  exists k, (k < n)%nat /\ w = pretty k /\
            p = (fun '(sw, sh) => Surface (Pos.of_succ_nat k) sw sh)
                  <$> render_size f (pretty k).
Proof.
  unfold filled_cache. split.
  - intros Hin%elem_of_list_to_map_2.
    apply list_elem_of_fmap in Hin as (k & [= -> ->] & Hk%elem_of_seq).
    exists k. split_and!; [lia | done | done].
  - intros (k & Hk & -> & ->).
    apply elem_of_list_to_map_1; [apply filled_cache_keys|].
    apply list_elem_of_fmap. exists k. split; [done|]. apply elem_of_seq. lia.
Qed.

Lemma filled_cache_size f n : size (filled_cache f n) = n.
Proof.
  unfold filled_cache.
  rewrite map_size_list_to_map by apply filled_cache_keys.
  by rewrite length_fmap, length_seq.
Qed.

Lemma filled_atlas_ok f n : atlas_ok (filled_atlas f n).
Proof.
  split; simpl.
  - done.
  - intros w p (k & Hk & -> & ->)%filled_cache_lookup.
    by destruct (render_size f (pretty k)) as [[sw sh]|].
  - intros w1 w2 s1 s2 (k1 & Hk1 & -> & Hs1)%filled_cache_lookup
      (k2 & Hk2 & -> & Hs2)%filled_cache_lookup.
    destruct (render_size f (pretty k1)) as [[sw1 sh1]|]; [|done].
    destruct (render_size f (pretty k2)) as [[sw2 sh2]|]; [|done].
    injection Hs1 as ->. injection Hs2 as ->. simpl.
    intros Hid. f_equal. lia.
Qed.

Lemma word_flush_renews_witness :
  let a := filled_atlas (flat_font 10 10 20 18) (Z.to_nat 40001) in
  atlas_ok a /\ 40000 < Z.of_nat (size (_prerendered a)) /\
  _prerendered a !! "0" = Some (Some (Surface 1 10 18)) /\
  exists s' a',
    word "0" a = (Some s', a') /\
    surface_size s' = (10, 18) /\
    _prerendered a' = {[ "0" := Some s' ]} /\
    rasterized a' = S (rasterized a) /\
    deref a' (Some (Surface 1 10 18), cleared a) = None.
Proof.
  intros a.
  assert (40000 < Z.of_nat (size (_prerendered a))) as Hsize.
  { subst a. unfold filled_atlas. cbn [_prerendered].
    rewrite filled_cache_size. lia. }
  assert (_prerendered a !! "0" = Some (Some (Surface 1 10 18))) as Hin.
  { subst a. unfold filled_atlas. cbn [_prerendered].
    apply filled_cache_lookup. exists O.
    split_and!; [lia | reflexivity | reflexivity]. }
  split_and!; [apply filled_atlas_ok | exact Hsize | exact Hin |].
  pose proof (word_flush_renews a "0" (Surface 1 10 18) (filled_atlas_ok _ _)
                Hsize Hin) as Hflush.
  exact Hflush.
Defined.

(** After a flush the allocator is asked for an address with no address
    in use. *)
Lemma word_after_flush (a : font_atlas) (w : string) (sw sh : Z) :
  40000 < Z.of_nat (size (_prerendered a)) ->
  render_size (_font a) w = Some (sw, sh) ->
  (word w a).1 =
  Some (Surface (alloc_address (render_address (_font a)) []) sw sh).
Proof.
  intros Hsize Hr. unfold word.
  destruct (Z.ltb_spec 40000 (Z.of_nat (size (_prerendered a)))); [|lia].
  change (_prerendered (clear a)) with (∅ : gmap string (option surface)).
  rewrite lookup_empty. unfold TTF_RenderUTF8_Blended, live_addresses.
  change (_prerendered (clear a)) with (∅ : gmap string (option surface)).
  change (_font (clear a)) with (_font a).
  rewrite Hr, map_to_list_empty. reflexivity.
Qed.

(** The allocator is free to hand out the address of a freed image: with
    the allocator of the flat font the image rasterized after the flush is
    at the address of the image that was flushed. *)
Example flush_reuses_address :
  let a := filled_atlas (flat_font 10 10 20 18) (Z.to_nat 40001) in
  _prerendered a !! "0" = Some (Some (Surface 1 10 18)) /\
  (word "0" a).1 = Some (Surface 1 10 18).
Proof.
  intros a. split.
  { subst a. unfold filled_atlas. cbn [_prerendered].
    apply filled_cache_lookup. exists O.
    split_and!; [lia | reflexivity | reflexivity]. }
  assert (40000 < Z.of_nat (size (_prerendered a))) as Hsize.
  { subst a. unfold filled_atlas. cbn [_prerendered].
    rewrite filled_cache_size. lia. }
  exact (word_after_flush a "0" 10 18 Hsize eq_refl).
Qed.

(** *** What every lookup keeps, the queries included *)

Section Preserved.
Variable P : font_atlas -> Prop.
Hypothesis word_keeps_P : forall w a, P a -> P (word w a).2.

Lemma text_size_loop_preserves ws : forall M st a r a',
  P a -> text_size_loop ws M st a = Some (r, a') -> P a'.
Proof.
  induction ws as [|w ws IH]; intros M st a r a' HP; simpl.
  - destruct (int_mul _ _); simpl; [|done]. by intros [= _ <-].
  - pose proof (word_keeps_P w a HP) as HP1.
    destruct (word w a) as [p a1]. simpl in HP1.
    destruct p as [surf|]; simpl; [|done].
    destruct (int_add (surf_w surf) _) as [aw|]; simpl; [|done].
    destruct (int_add aw _) as [sum|]; simpl; [|done].
    destruct (sum >=? M); [destruct (surf_w surf >=? M)|].
    + by intros [= _ <-].
    + destruct (int_add (lines st) 1); simpl; [|done]. by apply IH.
    + destruct (int_add (current_line_width st) aw); simpl; [|done].
      destruct (int_add (current_line_num_words st) 1); simpl; [|done].
      by apply IH.
Qed.

Lemma text_size_preserves t M a r a' :
  P a -> text_size t M a = Some (r, a') -> P a'.
Proof.
  intros HP. unfold text_size.
  destruct (M =? -1).
  { destruct (size_utf8 (_font a) t) as [[w h]|]; by intros [= _ <-]. }
  destruct (split_words t) as [|w0 ws]; [by intros [= _ <-]|].
  pose proof (word_keeps_P w0 a HP) as HP1.
  destruct (word w0 a) as [p a1]. simpl in HP1.
  destruct p as [surf|]; [|done].
  intros Hr. exact (text_size_loop_preserves _ _ _ _ _ _ HP1 Hr).
Qed.

Lemma render_words_preserves ws : forall a, P a -> P (render_words ws a).2.
Proof.
  induction ws as [|w ws IH]; intros a HP; simpl; [done|].
  pose proof (word_keeps_P w a HP) as HP1.
  destruct (word w a) as [p a1]. simpl in HP1.
  specialize (IH a1 HP1). by destruct (render_words ws a1).
Qed.

Lemma text_preserves t M a c a' :
  P a -> text t M a = Some (c, a') -> P a'.
Proof.
  intros HP. unfold text. destruct t as [|ch t0]; [by intros [= _ <-]|].
  pose proof (render_words_preserves (split_words (String ch t0)) a HP) as HP1.
  destruct (render_words (split_words (String ch t0)) a) as [surfaces a1].
  simpl in HP1.
  destruct (split_words (String ch t0)) as [|w0 ws]; [by intros [= _ <-]|].
  destruct surfaces as [|s0 ss]; [by intros [= _ <-]|].
  destruct (deref a1 s0) as [s|]; simpl; [|done].
  destruct (layout_loop _ _ _ _ _); simpl; [|done].
  destruct (int_mul _ _); simpl; [|done].
  destruct (blit_lines _ _ _ _); simpl; [|done].
  by intros [= _ <-].
Qed.
End Preserved.

Lemma word_size_bound w a :
  Z.of_nat (size (_prerendered a)) <= 40001 ->
  Z.of_nat (size (_prerendered (word w a).2)) <= 40001.
Proof.
  intros Hb. unfold word.
  destruct (Z.ltb_spec 40000 (Z.of_nat (size (_prerendered a)))) as [Hf|Hf].
  - change (_prerendered (clear a)) with (∅ : gmap string (option surface)).
    rewrite lookup_empty. unfold TTF_RenderUTF8_Blended.
    change (_font (clear a)) with (_font a).
    destruct (render_size (_font a) w) as [[sw sh]|]; simpl;
      rewrite insert_empty, map_size_singleton; lia.
  - destruct (_prerendered a !! w) as [q|] eqn:Hq; [done|].
    unfold TTF_RenderUTF8_Blended.
    destruct (render_size (_font a) w) as [[sw sh]|]; simpl;
      rewrite map_size_insert_None by done; lia.
Qed.

(** X11: The cache never grows beyond one entry over the threshold: from an
    atlas with at most 40001 cached words, a lookup, a size query and a
    rendering all end with at most 40001 cached words. *)
Theorem cache_never_exceeds_threshold (a : font_atlas) :
  Z.of_nat (size (_prerendered a)) <= 40001 ->
  (forall w, Z.of_nat (size (_prerendered (word w a).2)) <= 40001) /\
  (forall t M r a', text_size t M a = Some (r, a') ->
                    Z.of_nat (size (_prerendered a')) <= 40001) /\
  (forall t M c a', text t M a = Some (c, a') ->
                    Z.of_nat (size (_prerendered a')) <= 40001).
Proof.
  intros Hb. split_and!.
  - intros w. by apply word_size_bound.
  - intros t M r a'.
    by apply (text_size_preserves
                (fun a => Z.of_nat (size (_prerendered a)) <= 40001)
                word_size_bound).
  - intros t M c a'.
    by apply (text_preserves
                (fun a => Z.of_nat (size (_prerendered a)) <= 40001)
                word_size_bound).
Qed.

Lemma cache_never_exceeds_threshold_witness :
  Z.of_nat (size (_prerendered (font_atlas_open (flat_font 10 10 20 18))))
    <= 40001 /\
  Z.of_nat (size (_prerendered
                    (word "a" (font_atlas_open (flat_font 10 10 20 18))).2))
    <= 40001.
Proof.
  split; [by vm_compute|].
  apply (cache_never_exceeds_threshold
           (font_atlas_open (flat_font 10 10 20 18))).
  by vm_compute.
Defined.

Lemma word_keeps_ok f w a :
  atlas_ok a /\ _font a = f -> atlas_ok (word w a).2 /\ _font (word w a).2 = f.
Proof.
  intros [Hok <-]. destruct (word w a) as [p a'] eqn:Hw.
  by destruct (word_ok _ _ _ _ Hok Hw) as (? & ? & _).
Qed.

(** X12: The invariant of the atlas holds after every operation: the new
    atlas, a lookup, a flush, a size query and a rendering keep it, and none
    changes the font. *)
Theorem atlas_invariant_kept (a : font_atlas) :
  atlas_ok a ->
  (forall f, atlas_ok (font_atlas_open f)) /\
  atlas_ok (clear a) /\
  (forall w, atlas_ok (word w a).2 /\ _font (word w a).2 = _font a) /\
  (forall t M r a', text_size t M a = Some (r, a') ->
                    atlas_ok a' /\ _font a' = _font a) /\
  (forall t M c a', text t M a = Some (c, a') ->
                    atlas_ok a' /\ _font a' = _font a).
Proof.
  intros Hok. split_and!.
  - apply atlas_ok_open.
  - by apply atlas_ok_clear.
  - intros w. by apply word_keeps_ok.
  - intros t M r a'.
    by apply (text_size_preserves
                (fun a0 => atlas_ok a0 /\ _font a0 = _font a)
                (word_keeps_ok (_font a))).
  - intros t M c a'.
    by apply (text_preserves
                (fun a0 => atlas_ok a0 /\ _font a0 = _font a)
                (word_keeps_ok (_font a))).
Qed.

Lemma atlas_invariant_kept_witness :
  atlas_ok (font_atlas_open (flat_font 10 10 20 18)) /\
  atlas_ok (clear (font_atlas_open (flat_font 10 10 20 18))).
Proof.
  split; [apply atlas_ok_open|].
  apply (atlas_invariant_kept (font_atlas_open (flat_font 10 10 20 18))).
  apply atlas_ok_open.
Defined.

(** X13: A lookup returns a null pointer exactly for the words the rasterizer
    refuses, and otherwise an image of the size the rasterizer gives, be
    the word cached or not. *)
Theorem word_null_iff_refused (a : font_atlas) (w : string) :
  atlas_ok a ->
  ((word w a).1 = None <-> render_size (_font a) w = None) /\
  (forall s, (word w a).1 = Some s ->
             render_size (_font a) w = Some (surf_w s, surf_h s)).
Proof.
  intros Hok. destruct (word w a) as [p a'] eqn:Hw.
  destruct (word_ok _ _ _ _ Hok Hw) as (_ & _ & _ & _ & Hsz). simpl.
  rewrite <- Hsz. split.
  - by destruct p.
  - by intros s ->.
Qed.

Lemma word_null_iff_refused_witness :
  (word "" (font_atlas_open (flat_font 10 10 20 18))).1 = None.
Proof.
  apply (word_null_iff_refused (font_atlas_open (flat_font 10 10 20 18)) "");
    [apply atlas_ok_open | reflexivity].
Defined.

End CacheProps.

(** ** More on the size query *)

Module MeasureProps.
Import Bytes Tokenizer Atlas Reference IntFacts CacheFacts MeasureFacts.

(** Reads the next checked sum or product of the hypothesis [H]. *)
Ltac int_step H :=
  match type of H with
  | context [int_add ?x ?y] =>
      let v := fresh "v" in let Hv := fresh "Hv" in
      destruct (int_add x y) as [v|] eqn:Hv; simpl in H; [|done];
      apply int_add_Some in Hv as [-> Hv]
  | context [int_mul ?x ?y] =>
      let v := fresh "v" in let Hv := fresh "Hv" in
      destruct (int_mul x y) as [v|] eqn:Hv; simpl in H; [|done];
      apply int_mul_Some in Hv as [-> Hv]
  end.

(** X14: The answer of a size query depends on the font and the text, not on
    what the cache holds: two atlases of one font give the same answer, and
    asking again right after a query repeats its answer. *)
Theorem text_size_cache_independent (t : string) (M : Z) (a1 a2 : font_atlas) :
  atlas_ok a1 -> atlas_ok a2 -> _font a1 = _font a2 ->
  fst <$> text_size t M a1 = fst <$> text_size t M a2 /\
  (forall r a', text_size t M a1 = Some (r, a') ->
                fst <$> text_size t M a' = Some r).
Proof.
  assert (forall b1 b2, atlas_ok b1 -> atlas_ok b2 -> _font b1 = _font b2 ->
            fst <$> text_size t M b1 = fst <$> text_size t M b2) as Hind.
  { intros b1 b2 Hok1 Hok2 Hf.
    destruct (Z.eq_dec M (-1)) as [->|Hb].
    - unfold text_size. simpl. rewrite Hf.
      by destruct (size_utf8 (_font b2) t) as [[w h]|].
    - destruct (text_size_measure t M b1 Hok1 Hb) as [-> _].
      destruct (text_size_measure t M b2 Hok2 Hb) as [-> _].
      by rewrite Hf. }
  intros Hok1 Hok2 Hf. split; [by apply Hind|].
  intros r a' Hr.
  assert (atlas_ok a' /\ _font a' = _font a1) as [Hok' Hf'].
  { destruct (Z.eq_dec M (-1)) as [->|Hb].
    - unfold text_size in Hr. simpl in Hr.
      destruct (size_utf8 (_font a1) t) as [[w h]|]; by injection Hr as _ <-.
    - destruct (text_size_measure t M a1 Hok1 Hb) as [_ Hk]. by apply Hk in Hr. }
  rewrite (Hind a' a1 Hok' Hok1 Hf'), Hr. done.
Qed.

Lemma text_size_cache_independent_witness :
  fst <$> text_size "aaaa bbbb" 100 (font_atlas_open (flat_font 10 10 20 18)) =
  fst <$> text_size "aaaa bbbb" 100 (filled_atlas (flat_font 10 10 20 18) 3).
Proof.
  exact (proj1 (text_size_cache_independent "aaaa bbbb" 100
                  (font_atlas_open (flat_font 10 10 20 18))
                  (filled_atlas (flat_font 10 10 20 18) 3)
                  (atlas_ok_open _) (CacheProps.filled_atlas_ok _ _) eq_refl)).
Defined.

Lemma measure_loop_width f ws : forall M st r,
  current_line_width st < M -> 0 <= actual_max_width st < M ->
  measure_loop f ws M st = Some r -> r <> (-1, -1) ->
  0 <= fst r < M.
Proof.
  induction ws as [|w ws IH]; intros M st r Hclw Hamw; simpl.
  - intros Hr. int_step Hr. injection Hr as <-. intros _. simpl. lia.
  - destruct (render_size f w) as [[sw sh]|]; simpl; [|done].
    intros Hr. repeat int_step Hr. revert Hr. rewrite !Z.geb_leb.
    destruct (Z.leb_spec M (sw + space_glyph_advance f + current_line_width st));
      [destruct (Z.leb_spec M sw)|].
    + by intros [= <-].
    + intros Hr. int_step Hr. revert Hr. apply IH; simpl; lia.
    + intros Hr. repeat int_step Hr. revert Hr. apply IH; simpl; lia.
Qed.

(** X15: A bounded query with a positive budget that does not fail reports a
    width that is not negative and stays below the budget. *)
Theorem text_size_width_below_budget (t : string) (M : Z) (a : font_atlas)
    (r : vec) (a' : font_atlas) :
  atlas_ok a -> 0 < M ->
  text_size t M a = Some (r, a') -> r <> (-1, -1) ->
  0 <= fst r < M.
Proof.
  intros Hok HM Hr Hn.
  destruct (text_size_measure t M a Hok ltac:(lia)) as [Hm _].
  rewrite Hr in Hm. simpl in Hm. unfold measure in Hm.
  destruct (split_words t) as [|w0 ws]; [injection Hm as ->; simpl; lia|].
  destruct (render_size (_font a) w0) as [[sw sh]|] eqn:Hw0; [|done].
  cbn [mbind option_bind measure_loop] in Hm. rewrite Hw0 in Hm.
  cbn [mbind option_bind] in Hm.
  cbn [current_line_width actual_max_width lines current_line_num_words] in Hm.
  symmetry in Hm. repeat int_step Hm.
  rewrite !Z.geb_leb in Hm.
  destruct (Z.leb_spec M (sw + space_glyph_advance (_font a) + sw));
    [destruct (Z.leb_spec M sw)|].
  - congruence.
  - repeat int_step Hm.
    refine (measure_loop_width _ _ _ _ _ _ _ Hm Hn); simpl; lia.
  - repeat int_step Hm.
    refine (measure_loop_width _ _ _ _ _ _ _ Hm Hn); simpl; lia.
Qed.

Lemma text_size_width_below_budget_witness :
  fst <$> text_size "aaaa bbbb cccc" 91
            (font_atlas_open (flat_font 10 10 20 18)) = Some (90, 40) /\
  0 <= fst (90, 40) < 91.
Proof.
  split; [by vm_compute|].
  destruct (text_size "aaaa bbbb cccc" 91 (font_atlas_open (flat_font 10 10 20 18)))
    as [[r a']|] eqn:Hr; [|vm_compute in Hr; discriminate].
  assert (r = (90, 40)) as ->
    by (apply (f_equal (fmap (M := option) fst)) in Hr; vm_compute in Hr;
        congruence).
  refine (text_size_width_below_budget "aaaa bbbb cccc" 91 _ (90, 40) a'
            (atlas_ok_open _) _ Hr _); (lia || discriminate).
Defined.

Lemma run_width_nonneg f ws : font_sane f -> 0 <= run_width f ws.
Proof.
  intros Hsane. induction ws as [|w ws IH]; simpl; [done|].
  pose proof (sane_advance _ Hsane).
  destruct (render_size f w) as [[sw sh]|] eqn:Hw; [|lia].
  pose proof (sane_width _ Hsane _ _ _ Hw). lia.
Qed.

Lemma measure_loop_fails f ws : forall M st,
  font_sane f ->
  0 <= current_line_width st -> 0 <= actual_max_width st ->
  0 <= lines st -> 0 <= current_line_num_words st ->
  Forall (fun w => is_Some (render_size f w)) ws ->
  current_line_width st + run_width f ws < 2 ^ 31 ->
  lines st + Z.of_nat (List.length ws) < 2 ^ 31 ->
  current_line_num_words st + Z.of_nat (List.length ws) < 2 ^ 31 ->
  measure_loop f ws M st = Some (-1, -1) <-> Exists (too_wide f M) ws.
Proof.
  induction ws as [|w ws IH];
    intros M st Hsane Hclw Hamw Hl Hn Hall Hfit Hfl Hfn.
  - rewrite Exists_nil. split; [|done]. simpl. intros Hr. int_step Hr.
    injection Hr as Hm _. lia.
  - apply Forall_cons in Hall as [[[sw sh] Hw] Hall].
    cbn [measure_loop run_width] in *. rewrite Hw in *.
    cbn [mbind option_bind] in *.
    pose proof (sane_width _ Hsane _ _ _ Hw) as Hsw.
    pose proof (sane_advance _ Hsane) as Hsa.
    pose proof (run_width_nonneg f ws Hsane) as Hrw.
    change (List.length (w :: ws)) with (S (List.length ws)) in *.
    rewrite Nat2Z.inj_succ in *.
    rewrite (int_add_fits sw) by (unfold int_range; lia).
    cbn [mbind option_bind].
    rewrite (int_add_fits (sw + space_glyph_advance f))
      by (unfold int_range; lia).
    cbn [mbind option_bind].
    rewrite (int_add_fits (lines st)) by (unfold int_range; lia).
    rewrite (int_add_fits (current_line_width st)) by (unfold int_range; lia).
    rewrite (int_add_fits (current_line_num_words st))
      by (unfold int_range; lia).
    cbn [mbind option_bind].
    rewrite Exists_cons, !Z.geb_leb.
    assert (too_wide f M w <-> M <= sw) as Hwide.
    { unfold too_wide. rewrite Hw. split.
      - by intros (? & ? & [= <- <-] & ?).
      - intros ?. by exists sw, sh. }
    destruct (Z.leb_spec M (sw + space_glyph_advance f + current_line_width st));
      [destruct (Z.leb_spec M sw)|].
    + split; [|done]. intros _. left. by apply Hwide.
    + rewrite IH by (simpl; (done || lia)). rewrite Hwide. split; [tauto|].
      intros [?|?]; [lia | done].
    + rewrite IH by (simpl; (done || lia)). rewrite Hwide. split; [tauto|].
      intros [?|?]; [lia | done].
Qed.

Lemma measure_fails f t M :
  font_sane f ->
  Forall (fun w => is_Some (render_size f w)) (split_words t) ->
  2 * run_width f (split_words t) < 2 ^ 31 ->
  Z.of_nat (List.length (split_words t)) + 1 < 2 ^ 31 ->
  measure f t M = Some (-1, -1) <-> Exists (too_wide f M) (split_words t).
Proof.
  intros Hsane Hall Hfit Hcount. unfold measure.
  destruct (split_words t) as [|w0 ws] eqn:Hws.
  - rewrite Exists_nil. split; [|done]. by intros [=].
  - pose proof Hall as Hall'.
    apply Forall_cons in Hall' as [[[sw sh] Hw0] _]. rewrite Hw0.
    pose proof (sane_width _ Hsane _ _ _ Hw0) as Hsw.
    pose proof (sane_advance _ Hsane) as Hsa.
    pose proof (run_width_nonneg f ws Hsane) as Hrw.
    apply (measure_loop_fails _ (w0 :: ws) M
             {| actual_max_width := 0; lines := 1; current_line_num_words := 1;
                current_line_width := sw |} Hsane);
      cbn [current_line_width actual_max_width lines current_line_num_words];
      try done; try lia.
    cbn [run_width] in *. rewrite Hw0 in *. lia.
Qed.

(** X16: With a font whose sizes are not negative, words it can all
    rasterize, and a text short enough for the sums of the loop to fit an
    [int] (twice its width on one line, and its number of words), a bounded
    query fails exactly when some word has an image as wide as the budget
    or wider. *)
Theorem text_size_fails_iff_too_wide (t : string) (M : Z) (a : font_atlas) :
  atlas_ok a -> font_sane (_font a) -> M <> -1 ->
  Forall (fun w => is_Some (render_size (_font a) w)) (split_words t) ->
  2 * run_width (_font a) (split_words t) < 2 ^ 31 ->
  Z.of_nat (List.length (split_words t)) + 1 < 2 ^ 31 ->
  fst <$> text_size t M a = Some (-1, -1) <->
  Exists (too_wide (_font a) M) (split_words t).
Proof.
  intros Hok Hsane Hb Hall Hfit Hcount.
  destruct (text_size_measure t M a Hok Hb) as [Hm _].
  unfold vec in *. rewrite Hm. by apply measure_fails.
Qed.

Lemma text_size_fails_iff_too_wide_witness :
  fst <$> text_size "aa bbbbbbbbbb" 50 (font_atlas_open (flat_font 10 10 20 18))
    = Some (-1, -1).
Proof.
  apply (text_size_fails_iff_too_wide "aa bbbbbbbbbb" 50
           (font_atlas_open (flat_font 10 10 20 18))).
  - apply atlas_ok_open.
  - apply flat_font_sane; lia.
  - lia.
  - rewrite TokenizerFacts.split_words_tokens.
    change (tokens "aa bbbbbbbbbb") with ["aa"; "bbbbbbbbbb"].
    repeat constructor; by eexists.
  - by vm_compute.
  - by vm_compute.
  - rewrite TokenizerFacts.split_words_tokens.
    change (tokens "aa bbbbbbbbbb") with ["aa"; "bbbbbbbbbb"].
    apply Exists_cons_tl, Exists_cons_hd. exists 100, 18. split; [reflexivity | lia].
Defined.

(** *** [text_minimum_width] *)

Lemma text_minimum_width_loop_spec f ws : forall m r,
  Forall (fun w => is_Some (size_utf8 f w)) ws ->
  text_minimum_width_loop f ws m = r ->
  m <= r /\
  Forall (fun w => forall sw h, size_utf8 f w = Some (sw, h) -> sw <= r) ws /\
  (r = m \/ Exists (fun w => exists h, size_utf8 f w = Some (r, h)) ws).
Proof.
  induction ws as [|w ws IH]; intros m r Hall; simpl.
  - intros <-. split_and!; [lia | constructor | by left].
  - apply Forall_cons in Hall as [[[sw h] Hw] Hall]. rewrite Hw.
    intros Hr. destruct (IH (Z.max m sw) r Hall Hr) as (Hge & Hub & Hat).
    split_and!.
    + lia.
    + constructor; [|done]. intros sw' h' Hs. rewrite Hw in Hs.
      injection Hs as <- _. lia.
    + destruct Hat as [Heq|Hex]; [|right; by apply Exists_cons_tl].
      destruct (Z.max_spec m sw) as [[_ Hmax]|[_ Hmax]]; rewrite Hmax in Heq.
      * right. apply Exists_cons_hd. exists h. by rewrite Heq.
      * by left.
Qed.

Lemma text_minimum_width_loop_fails f ws : forall m,
  Exists (fun w => size_utf8 f w = None) ws ->
  text_minimum_width_loop f ws m = -1.
Proof.
  induction ws as [|w ws IH]; intros m Hex; [by apply Exists_nil in Hex|].
  simpl. destruct (size_utf8 f w) as [[sw h]|] eqn:Hw; [|done].
  apply Exists_cons in Hex as [Hex|Hex]; [congruence|]. by apply IH.
Qed.

(** X17: [text_minimum_width] is [-1] as soon as the size of one word cannot be
    determined.  Otherwise it is not negative, no word is wider, and it is 0
    or the width of one of the words. *)
Theorem text_minimum_width_spec (t : string) (a : font_atlas) :
  (Exists (fun w => size_utf8 (_font a) w = None) (split_words t) ->
   text_minimum_width t a = -1) /\
  (Forall (fun w => is_Some (size_utf8 (_font a) w)) (split_words t) ->
   0 <= text_minimum_width t a /\
   Forall (fun w => forall sw h, size_utf8 (_font a) w = Some (sw, h) ->
                                 sw <= text_minimum_width t a) (split_words t) /\
   (text_minimum_width t a = 0 \/
    Exists (fun w => exists h,
              size_utf8 (_font a) w = Some (text_minimum_width t a, h))
      (split_words t))).
Proof.
  unfold text_minimum_width. split.
  - apply text_minimum_width_loop_fails.
  - intros Hall. by apply text_minimum_width_loop_spec.
Qed.

Lemma text_minimum_width_spec_witness :
  0 <= text_minimum_width "aa bbbbbbbbbb"
         (font_atlas_open (flat_font 10 10 20 18)).
Proof.
  apply (text_minimum_width_spec "aa bbbbbbbbbb"
           (font_atlas_open (flat_font 10 10 20 18))).
  rewrite TokenizerFacts.split_words_tokens.
  change (tokens "aa bbbbbbbbbb") with ["aa"; "bbbbbbbbbb"].
  repeat constructor; by eexists.
Defined.

(** X18: When the whole-string size query and the rasterizer agree on the
    widths of the words, and the text is short enough for the sums of the
    loop to fit an [int], [text_minimum_width] is the least budget that is
    too small: a bounded query with a positive budget fails exactly when the
    budget is at most the minimum width. *)
Theorem text_size_fails_iff_minimum_width (t : string) (M : Z) (a : font_atlas) :
  atlas_ok a -> font_sane (_font a) -> 0 < M ->
  Forall (fun w => exists sw sh h, render_size (_font a) w = Some (sw, sh) /\
                                   size_utf8 (_font a) w = Some (sw, h))
    (split_words t) ->
  2 * run_width (_font a) (split_words t) < 2 ^ 31 ->
  Z.of_nat (List.length (split_words t)) + 1 < 2 ^ 31 ->
  fst <$> text_size t M a = Some (-1, -1) <-> M <= text_minimum_width t a.
Proof.
  intros Hok Hsane HM Hall Hfit Hcount.
  assert (Forall (fun w => is_Some (render_size (_font a) w)) (split_words t))
    as Hrend
    by (eapply Forall_impl; [exact Hall|]; by intros w (sw & sh & h & -> & _)).
  destruct (text_size_measure t M a Hok ltac:(lia)) as [Hm _].
  unfold vec in *. rewrite Hm. clear Hm.
  rewrite (measure_fails (_font a) t M Hsane Hrend Hfit Hcount).
  unfold text_minimum_width.
  assert (forall ws m,
            Forall (fun w => exists sw sh h,
                      render_size (_font a) w = Some (sw, sh) /\
                      size_utf8 (_font a) w = Some (sw, h)) ws ->
            m < M ->
            Exists (too_wide (_font a) M) ws <->
            M <= text_minimum_width_loop (_font a) ws m) as Hloop.
  { clear. intros ws m Hall. revert m.
    induction Hall as [|w ws (sw & sh & h & Hr & Hs) Hall IH];
      intros m Hm; simpl.
    - rewrite Exists_nil. lia.
    - rewrite Hs, Exists_cons. unfold too_wide at 1. rewrite Hr.
      destruct (Z.le_gt_cases M sw) as [Hwide|Hnarrow].
      + split; [|intros _; left; by exists sw, sh].
        intros _.
        destruct (text_minimum_width_loop_spec (_font a) ws (Z.max m sw) _
                    ltac:(eapply Forall_impl; [exact Hall|];
                          by intros ? (? & ? & ? & _ & ->)) eq_refl)
          as [Hge _]. lia.
      + rewrite <- IH by lia. split; [|tauto].
        intros [(? & ? & [= <- <-] & ?)|?]; [lia | done]. }
  by apply Hloop.
Qed.

Lemma text_size_fails_iff_minimum_width_witness :
  text_minimum_width "aa bbbbbbbbbb" (font_atlas_open (flat_font 10 10 20 18))
    = 100 /\
  fst <$> text_size "aa bbbbbbbbbb" 100 (font_atlas_open (flat_font 10 10 20 18))
    = Some (-1, -1).
Proof.
  split; [reflexivity|].
  apply (text_size_fails_iff_minimum_width "aa bbbbbbbbbb" 100
           (font_atlas_open (flat_font 10 10 20 18))).
  - apply atlas_ok_open.
  - apply flat_font_sane; lia.
  - lia.
  - rewrite TokenizerFacts.split_words_tokens.
    change (tokens "aa bbbbbbbbbb") with ["aa"; "bbbbbbbbbb"].
    repeat constructor; by eexists _, _, _.
  - by vm_compute.
  - by vm_compute.
  - by vm_compute.
Defined.

Lemma measure_loop_lines f ws : forall M st r,
  measure_loop f ws M st = Some r -> r <> (-1, -1) ->
  exists n, snd r = n * ttf_font_line_skip f /\
            lines st <= n <= lines st + Z.of_nat (List.length ws).
Proof.
  induction ws as [|w ws IH]; intros M st r; simpl.
  - intros Hr. int_step Hr. injection Hr as <-. intros _.
    exists (lines st). simpl. lia.
  - destruct (render_size f w) as [[sw sh]|]; simpl; [|done].
    intros Hr. repeat int_step Hr. revert Hr.
    destruct (_ >=? M); [destruct (sw >=? M)|].
    + by intros [= <-].
    + intros Hr Hn. int_step Hr.
      destruct (IH _ _ _ Hr Hn) as (n & Hs & Hb).
      exists n. simpl in Hb. split; [done | lia].
    + intros Hr Hn. repeat int_step Hr.
      destruct (IH _ _ _ Hr Hn) as (n & Hs & Hb).
      exists n. simpl in Hb. split; [done | lia].
Qed.

(** X19: A bounded query that does not fail on a text of [k >= 1] words
    reports the height of at least one line and of at most [k + 1] lines:
    the first word passes the loop once more after it has seeded the first
    line, so one line more than there are words can be counted. *)
Theorem text_size_line_count (t : string) (M : Z) (a : font_atlas)
    (r : vec) (a' : font_atlas) :
  atlas_ok a -> M <> -1 -> split_words t <> [] ->
  text_size t M a = Some (r, a') -> r <> (-1, -1) ->
  exists n, snd r = n * font_line_skip a /\
            1 <= n <= Z.of_nat (List.length (split_words t)) + 1.
Proof.
  intros Hok Hb Hne Hr Hn.
  destruct (text_size_measure t M a Hok Hb) as [Hm _].
  rewrite Hr in Hm. simpl in Hm. unfold measure in Hm.
  destruct (split_words t) as [|w0 ws]; [done|].
  destruct (render_size (_font a) w0) as [[sw sh]|] eqn:Hw0; [|done].
  set (st := {| actual_max_width := 0; lines := 1;
                current_line_num_words := 1; current_line_width := sw |}).
  assert (measure_loop (_font a) (w0 :: ws) M st = Some r) as Hl
    by (symmetry; exact Hm).
  destruct (measure_loop_lines _ _ _ _ _ Hl Hn) as (n & Hs & Hbn).
  exists n. split; [done|]. simpl in Hbn. simpl List.length. lia.
Qed.

Lemma text_size_line_count_witness :
  fst <$> text_size "aaaa bbbb cccc" 80
            (font_atlas_open (flat_font 10 10 20 18)) = Some (40, 80) /\
  exists n, snd (40, 80) = n * 20 /\ 1 <= n <= 3 + 1.
Proof.
  split; [by vm_compute|].
  destruct (text_size "aaaa bbbb cccc" 80 (font_atlas_open (flat_font 10 10 20 18)))
    as [[r a']|] eqn:Hr; [|vm_compute in Hr; discriminate].
  assert (r = (40, 80)) as ->
    by (apply (f_equal (fmap (M := option) fst)) in Hr; vm_compute in Hr;
        congruence).
  refine (text_size_line_count "aaaa bbbb cccc" 80 _ (40, 80) a'
            (atlas_ok_open _) _ _ Hr _); (lia || discriminate).
Defined.

End MeasureProps.
(** ** More on the render path *)

Module RenderProps.
Import Bytes Utf8 Tokenizer Atlas Reference IntFacts CacheFacts RenderFacts.

Lemma word_font w a : _font (word w a).2 = _font a.
Proof.
  unfold word.
  set (a1 := if 40000 <? Z.of_nat (size (_prerendered a)) then clear a else a).
  assert (_font a1 = _font a) as <- by (subst a1; by destruct (_ <? _)).
  destruct (_prerendered a1 !! w); [done|]. unfold TTF_RenderUTF8_Blended.
  by destruct (render_size (_font a1) w) as [[sw sh]|].
Qed.

Lemma render_words_sizes ws : forall a ss a1,
  atlas_ok a -> render_words ws a = (ss, a1) ->
  Forall2 (fun w (p : held_pointer) =>
             surface_size <$> p.1 = render_size (_font a) w) ws ss.
Proof.
  induction ws as [|w ws IH]; intros a ss a1 Hok; simpl.
  - intros [= <- _]. constructor.
  - destruct (word w a) as [p a0] eqn:Hw.
    destruct (word_ok _ _ _ _ Hok Hw) as (Hok0 & Hf0 & _ & _ & Hsz).
    destruct (render_words ws a0) as [ss0 a2] eqn:Hr.
    intros [= <- _]. constructor; [done|].
    rewrite <- Hf0. by eapply IH.
Qed.

Lemma render_words_font ws a : _font (render_words ws a).2 = _font a.
Proof.
  apply (CacheProps.render_words_preserves (fun a0 => _font a0 = _font a));
    [|done].
  intros w a0 <-. apply word_font.
Qed.

(** X20: Every word is drawn once, in the order of the text, with an image of
    the size the rasterizer gives for it. *)
Theorem text_draws_every_word (t : string) (M : Z) (a : font_atlas)
    (c : canvas) (a' : font_atlas) :
  atlas_ok a -> text t M a = Some (c, a') ->
  Forall2 (fun w b => render_size (_font a) w = Some (surface_size b.1.1))
    (split_words t) (canvas_blits c).
Proof.
  intros Hok Ht.
  destruct (split_words t) as [|w0' ws'] eqn:Hws.
  { unfold text in Ht. rewrite Hws in Ht.
    destruct t; injection Ht as <- _; constructor. }
  destruct (text_layout t M a c a' ltac:(by rewrite Hws) Ht)
    as (w0 & ws & s0 & ss & L & h & blits & Hws' & Hr & HL & _ & Hb & ->).
  rewrite Hws in Hws'. injection Hws' as -> ->.
  pose proof (render_words_sizes _ _ _ _ Hok Hr) as Hsz.
  destruct (layout_loop_ok _ _ _ _ _ _ (first_layout_ok s0) HL)
    as (HokL & Hc & _ & _).
  simpl in Hc. rewrite combine_snd in Hc
    by (apply Forall2_length in Hsz; simpl in Hsz; lia).
  rewrite <- (blit_lines_surfaces _ _ _ _ _ (lo_offsets _ HokL) Hb) in Hc.
  unfold held_pointer in *.
  rewrite <- Hc in Hsz. simpl canvas_blits.
  rewrite <- !list_fmap_compose in Hsz.
  apply Forall2_fmap_r in Hsz.
  eapply Forall2_impl; [exact Hsz|]. intros w b Hb'. simpl in Hb'.
  symmetry. exact Hb'.
Qed.

Lemma text_draws_every_word_witness :
  atlas_ok (font_atlas_open (flat_font 10 10 20 18)) /\
  fst <$> text "aa bbbbbbbbbb" 50 (font_atlas_open (flat_font 10 10 20 18)) =
    Some (Canvas 100 40 [(Surface 1 20 18, 0, 0); (Surface 2 100 18, 0, 20)]) /\
  Forall2 (fun w b => render_size (flat_font 10 10 20 18) w
                      = Some (surface_size b.1.1))
    (split_words "aa bbbbbbbbbb")
    [(Surface 1 20 18, 0, 0); (Surface 2 100 18, 0, 20)].
Proof.
  split_and!; [apply atlas_ok_open | by vm_compute |].
  destruct (text "aa bbbbbbbbbb" 50 (font_atlas_open (flat_font 10 10 20 18)))
    as [[c a']|] eqn:Hc; [|vm_compute in Hc; discriminate].
  assert (c = Canvas 100 40 [(Surface 1 20 18, 0, 0); (Surface 2 100 18, 0, 20)])
    as -> by (apply (f_equal (fmap (M := option) fst)) in Hc; vm_compute in Hc;
              congruence).
  exact (text_draws_every_word "aa bbbbbbbbbb" 50 _ _ a' (atlas_ok_open _) Hc).
Defined.

(** X21: A rendering of [k >= 1] words has between 1 and [k] lines, exactly one
    when there is no budget; the canvas is as high as that many line skips
    and every image is drawn at the top of one of these lines. *)
Theorem text_line_count (t : string) (M : Z) (a : font_atlas)
    (c : canvas) (a' : font_atlas) :
  split_words t <> [] -> text t M a = Some (c, a') ->
  exists n,
    canvas_h c = font_line_skip a * n /\
    1 <= n <= Z.of_nat (List.length (split_words t)) /\
    (M = -1 -> n = 1) /\
    Forall (fun b => exists k, 0 <= k < n /\ b.2 = k * font_line_skip a)
      (canvas_blits c).
Proof.
  intros Hne Ht.
  destruct (text_layout t M a c a' Hne Ht)
    as (w0 & ws & s0 & ss & L & h & blits & Hws & Hr & HL & Hh & Hb & ->).
  assert (font_line_skip a' = font_line_skip a) as Hskip.
  { unfold font_line_skip. pose proof (render_words_font (w0 :: ws) a) as Hf.
    rewrite Hr in Hf. simpl in Hf. by rewrite Hf. }
  destruct (render_words_held _ _ _ _ Hr) as (_ & _ & Hlen & _).
  simpl in Hlen.
  destruct (layout_loop_ok _ _ _ _ _ _ (first_layout_ok s0) HL)
    as (HokL & _ & Hn & Hu).
  simpl in Hn, Hu. rewrite length_combine in Hn.
  apply int_mul_Some in Hh as [-> _].
  exists (Z.of_nat (List.length (widths L))). simpl. rewrite Hws, Hskip.
  split; [done|]. split; [simpl; lia|].
  split; [intros HM; rewrite (Hu HM); lia|].
  rewrite (lo_widths _ HokL). rewrite Hskip in Hb.
  eapply Forall_impl; [exact (blit_lines_rows _ _ _ _ _ Hb)|].
  intros b (k & Hk & Hb'). exists k. split; [done|]. rewrite Hb'. lia.
Qed.

Lemma text_line_count_witness :
  split_words "hello world" <> [] /\
  exists n, 20 = 20 * n /\ 1 <= n <= 2 /\ (-1 = -1 -> n = 1).
Proof.
  split; [discriminate|].
  destruct (text "hello world" (-1) (font_atlas_open (flat_font 10 10 20 18)))
    as [[c a']|] eqn:Hc; [|vm_compute in Hc; discriminate].
  assert (canvas_h c = 20) as Hh
    by (apply (f_equal (fmap (M := option) (fun r => canvas_h r.1))) in Hc;
        vm_compute in Hc; injection Hc as Hc; symmetry; exact Hc).
  destruct (text_line_count "hello world" (-1) _ c a' ltac:(discriminate) Hc)
    as (n & Hn & Hb & Hu & _).
  exists n. rewrite Hh in Hn.
  split; [exact Hn|]. split; [exact Hb | exact Hu].
Defined.

Lemma word_flushes w a :
  40000 < Z.of_nat (size (_prerendered a)) ->
  cleared (word w a).2 = S (cleared a).
Proof.
  intros Hs. unfold word.
  destruct (Z.ltb_spec 40000 (Z.of_nat (size (_prerendered a)))); [|lia].
  change (_prerendered (clear a)) with (∅ : gmap string (option surface)).
  rewrite lookup_empty. unfold TTF_RenderUTF8_Blended.
  by destruct (render_size (_font (clear a)) w) as [[sw sh]|].
Qed.

Lemma word_fills w a :
  Z.of_nat (size (_prerendered a)) = 40000 -> _prerendered a !! w = None ->
  cleared (word w a).2 = cleared a /\
  Z.of_nat (size (_prerendered (word w a).2)) = 40001.
Proof.
  intros Hs Hw. unfold word.
  destruct (Z.ltb_spec 40000 (Z.of_nat (size (_prerendered a)))); [lia|].
  rewrite Hw. unfold TTF_RenderUTF8_Blended.
  destruct (render_size (_font a) w) as [[sw sh]|]; simpl;
    rewrite map_size_insert_None by done; lia.
Qed.

(** X22: A flush in the middle of the first loop of [text] frees the images
    whose pointers the loop has already taken.  With 40000 cached words, a
    first word that is not cached and a second word, the lookup of the
    second word flushes, and [text] then reads the image of the first word
    through its dangling pointer: the rendering has no defined result,
    whatever the budget. *)
Theorem text_reads_flushed_image (t : string) (M : Z) (a : font_atlas)
    (w0 w1 : string) (ws : list string) :
  split_words t = w0 :: w1 :: ws ->
  Z.of_nat (size (_prerendered a)) = 40000 ->
  _prerendered a !! w0 = None ->
  text t M a = None.
Proof.
  intros Hws Hsize Hw0. unfold text.
  destruct t as [|ch t0]; [done|]. rewrite Hws.
  destruct (render_words (w0 :: w1 :: ws) a) as [surfaces a1] eqn:Hr.
  cbn [render_words] in Hr.
  destruct (word_fills w0 a Hsize Hw0) as [Hc0 Hs0].
  destruct (word w0 a) as [p0 a0]. cbn [snd] in Hc0, Hs0.
  pose proof (word_flushes w1 a0 ltac:(lia)) as Hc1.
  destruct (word w1 a0) as [p1 a2]. cbn [snd] in Hc1.
  destruct (render_words ws a2) as [ps a3] eqn:Hr3.
  destruct (render_words_held _ _ _ _ Hr3) as (Hle & _).
  injection Hr as <- <-.
  unfold deref. cbn [fst snd]. case_decide; [lia | done].
Qed.

Lemma text_reads_flushed_image_witness :
  let a := filled_atlas (flat_font 10 10 20 18) (Z.to_nat 40000) in
  split_words "40000 40001" = ["40000"; "40001"] /\
  Z.of_nat (size (_prerendered a)) = 40000 /\
  _prerendered a !! "40000" = None /\
  text "40000 40001" (-1) a = None.
Proof.
  intros a.
  assert (Z.of_nat (size (_prerendered a)) = 40000) as Hsize.
  { subst a. unfold filled_atlas. cbn [_prerendered].
    rewrite CacheProps.filled_cache_size. lia. }
  assert (_prerendered a !! "40000" = None) as Hmiss.
  { subst a. unfold filled_atlas. cbn [_prerendered].
    apply eq_None_not_Some. intros [p Hp].
    apply CacheProps.filled_cache_lookup in Hp as (k & Hk & Hpk & _).
    change "40000" with (pretty (Z.to_nat 40000)) in Hpk.
    apply (inj pretty) in Hpk. lia. }
  split_and!; [reflexivity | exact Hsize | exact Hmiss |].
  pose proof (text_reads_flushed_image "40000 40001" (-1) a "40000" "40001" []
                eq_refl Hsize Hmiss) as Hnone.
  exact Hnone.
Defined.

Lemma layout_loop_widths a M rest : forall wn L L',
  M <> -1 ->
  Forall (fun x => x < M) (widths L) ->
  Forall (fun p : string * held_pointer =>
            forall s, p.2.1 = Some s -> surf_w s < M) rest ->
  layout_loop a M wn rest L = Some L' ->
  Forall (fun x => x < M) (widths L').
Proof.
  induction rest as [|[wn1 sn1] rest IH]; intros wn L L' HM HL Hrest; simpl.
  - by intros [= <-].
  - apply Forall_cons in Hrest as [Hs Hrest].
    destruct (layout_join a M wn wn1 sn1 L) as [L1|] eqn:Hj; simpl; [|done].
    destruct (layout_join_Some _ _ _ _ _ _ _ Hj)
      as (jw & s & _ & -> & [[Hc ->]|[Hc ->]]).
    + apply IH; [done | | done]. simpl.
      apply update_back_Forall; [|done]. intros _ _. lia.
    + apply IH; [done | | done]. simpl.
      apply Forall_app. split; [done|]. constructor; [|done]. by apply Hs.
Qed.

Lemma max_element_lt l M :
  l <> [] -> Forall (fun x => x < M) l -> max_element l < M.
Proof.
  destruct l as [|x r]; [done|]. intros _ Hall.
  apply Forall_cons in Hall as [Hx Hr]. simpl.
  revert x Hx. induction Hr as [|y r Hy _ IH]; intros x Hx; simpl; [done|].
  apply IH. lia.
Qed.

(** X23: When every word has an image narrower than the budget, the canvas of
    a bounded rendering is narrower than the budget. *)
Theorem text_canvas_within_budget (t : string) (M : Z) (a : font_atlas)
    (c : canvas) (a' : font_atlas) :
  atlas_ok a -> M <> -1 -> split_words t <> [] ->
  Forall (fun w => ~ too_wide (_font a) M w) (split_words t) ->
  text t M a = Some (c, a') ->
  canvas_w c < M.
Proof.
  intros Hok HM Hne Hnarrow Ht.
  destruct (text_layout t M a c a' Hne Ht)
    as (w0 & ws & s0 & ss & L & h & blits & Hws & Hr & HL & _ & _ & ->).
  rewrite Hws in Hnarrow.
  pose proof (render_words_sizes _ _ _ _ Hok Hr) as Hsz.
  assert (Forall (fun p : held_pointer =>
                    forall s, p.1 = Some s -> surf_w s < M)
            ((Some s0, cleared a') :: ss))
    as Hall.
  { clear -Hsz Hnarrow.
    induction Hsz as [|w p l k Hp _ IH]; [constructor|].
    apply Forall_cons in Hnarrow as [Hw Hl]. constructor; [|by apply IH].
    intros s Hs. rewrite Hs in Hp. simpl in Hp.
    destruct (Z.lt_ge_cases (surf_w s) M) as [|Hge]; [done|].
    exfalso. apply Hw. by exists (surf_w s), (surf_h s). }
  apply Forall_cons in Hall as [Hs0 Hss]. simpl.
  pose proof (layout_loop_ok _ _ _ _ _ _ (first_layout_ok s0) HL)
    as (HokL & _ & _ & _).
  apply max_element_lt.
  - pose proof (lo_lines _ HokL) as Hl. pose proof (lo_widths _ HokL) as Hw.
    destruct (widths L); [|done]. destruct (surfaces_per_line L); done.
  - refine (layout_loop_widths _ _ _ _ _ _ HM _ _ HL); simpl.
    + constructor; [by apply Hs0 | done].
    + clear -Hss. revert ss Hss.
      induction ws as [|w ws IH]; intros [|p ss] Hss; simpl; try constructor.
      * intros s Hs. apply Forall_cons in Hss as [Hp _]. by apply Hp.
      * apply IH. by apply Forall_cons in Hss as [_ ?].
Qed.

Lemma text_canvas_within_budget_witness :
  fst <$> text "aaaa bbbb cccc" 91 (font_atlas_open (flat_font 10 10 20 18)) =
    Some (Canvas 90 40 [(Surface 1 40 18, 0, 0); (Surface 2 40 18, 50, 0);
                        (Surface 3 40 18, 0, 20)]) /\
  90 < 91.
Proof.
  split; [by vm_compute|].
  destruct (text "aaaa bbbb cccc" 91 (font_atlas_open (flat_font 10 10 20 18)))
    as [[c a']|] eqn:Hc; [|vm_compute in Hc; discriminate].
  assert (canvas_w c = 90) as <-
    by (apply (f_equal (fmap (M := option) (fun r => canvas_w r.1))) in Hc;
        vm_compute in Hc; injection Hc as Hc; symmetry; exact Hc).
  refine (text_canvas_within_budget "aaaa bbbb cccc" 91 _ c a'
            (atlas_ok_open _) _ _ _ Hc); [lia | discriminate |].
  rewrite TokenizerFacts.split_words_tokens.
  change (tokens "aaaa bbbb cccc") with ["aaaa"; "bbbb"; "cccc"].
  repeat constructor; intros (sw & sh & [= <- _] & Hw); lia.
Defined.

End RenderProps.
